(** * Veil: the relay server of the repository, and the relay its specification describes

    The repository holds two versions of the backend entry point
    [server.ts]:

    - the checked-in one (an Express application with two middlewares and a
      Socket.IO server whose connection callback logs the connection and
      registers a [disconnect] listener that logs again): module [Backend];
    - the one the scaffolding script writes through a here-document (the same,
      plus a [GET /health] route and a [message] listener that logs the
      frame's [type] and re-emits the frame with [socket.broadcast.emit]):
      module [Scaffold].

    Both are embedded over a small model of what they run on: JavaScript
    values and what JSON makes of them ([JS]), the Socket.IO connection
    table, its limit on the length of a message and its event dispatch
    ([SocketIO]) and the Express layer stack with its final handler
    ([Express]).

    The specification also describes a session registry, a room directory and
    a message relay with pending queues that no file of the repository
    implements; module [Relay] models them from the specification's text. *)

From Stdlib Require Import ZArith Lia.
From Stdlib Require Import Floats.SpecFloat.
From Stdlib Require Import DecimalString.
From stdpp Require Import base option list gmap sets strings.
Set Warnings "-clear-no-such-hyp".

Open Scope string_scope.
Open Scope list_scope.
Open Scope nat_scope.
Set Warnings "-register-all".

(** ** JavaScript values *)

Module JS.

(** The values a Socket.IO frame can carry once decoded: JSON data, binary
    attachments ([Buffer]), and [undefined] for a missing argument.  Numbers
    are IEEE 754 doubles. *)
Inductive Value : Type :=
  | Undefined
  | Null
  | Bool (b : bool)
  | Number (x : spec_float)
  | Str (s : string)
  | Buffer (bytes : list Byte.byte)
  | Array (items : list Value)
  | Object (fields : list (string * Value)).

(** [ToBoolean]: [undefined], [null], [false], [+0], [-0], [NaN] and the empty
    string are falsy; every object (arrays and buffers included) is truthy. *)
Definition truthy (v : Value) : bool :=
  match v with
  | Undefined | Null => false
  | Bool b => b
  | Number (S754_zero _) | Number S754_nan => false
  | Number _ => true
  | Str s => negb (String.eqb s "")
  | Buffer _ | Array _ | Object _ => true
  end.

(** The first field of that name in a decoded object's field list. *)
Fixpoint field (key : string) (fields : list (string * Value)) : option Value :=
  match fields with
  | [] => None
  | (k, v) :: rest => if String.eqb k key then Some v else field key rest
  end.

(** [v.type] for a value that is neither [undefined] nor [null]: the field of
    a plain object; [undefined] on primitives, arrays and buffers, whose
    prototypes have no [type] member. *)
Definition dot_type (v : Value) : Value :=
  match v with
  | Object fields => default Undefined (field "type" fields)
  | _ => Undefined
  end.

(** [a && b], with [b] evaluated only when [a] is truthy. *)
Definition and_then (a : Value) (b : Value -> Value) : Value :=
  if truthy a then b a else a.

(** [c ? x : y] *)
Definition cond (c x y : Value) : Value := if truthy c then x else y.

(** A number as [JSON.stringify] writes it and [JSON.parse] reads it back:
    [NaN] and the infinities are written as [null], [-0] as [0]; every other
    double comes back as it was. *)
Definition json_number (x : spec_float) : Value :=
  match x with
  | S754_zero _ => Number (S754_zero false)
  | S754_infinity _ | S754_nan => Null
  | S754_finite _ _ _ => Number x
  end.

(** What a value is after [JSON.stringify] and [JSON.parse], as an element
    of an array: [undefined] becomes [null]; an object loses the members
    whose value is [undefined] and keeps the others in order; strings,
    booleans and [null] are unchanged.  Socket.IO takes the buffers out of a
    packet before it is written as JSON and puts them back after it is
    read, so a buffer arrives with the bytes it had. *)
Fixpoint json (v : Value) : Value :=
  match v with
  | Undefined => Null
  | Number x => json_number x
  | Array items => Array (map json items)
  | Object fields =>
      Object ((fix members (fs : list (string * Value)) :=
                 match fs with
                 | [] => []
                 | (_, Undefined) :: rest => members rest
                 | (k, x) :: rest => (k, json x) :: members rest
                 end) fields)
  | Null | Bool _ | Str _ | Buffer _ => v
  end.

(** The members of an object after [JSON.stringify] and [JSON.parse]. *)
Fixpoint json_members (fs : list (string * Value)) : list (string * Value) :=
  match fs with
  | [] => []
  | (_, Undefined) :: rest => json_members rest
  | (k, x) :: rest => (k, json x) :: json_members rest
  end.

(** The value survives JSON unchanged. *)
Definition json_safe (v : Value) : Prop := json v = v.

(** The values JSON represents exactly: [null], booleans, strings, buffers
    (as Socket.IO sends them), the finite numbers other than [-0], and the
    arrays and objects made of such values. *)
Fixpoint json_exact (v : Value) : bool :=
  match v with
  | Undefined => false
  | Number (S754_finite _ _ _) | Number (S754_zero false) => true
  | Number _ => false
  | Array items => forallb json_exact items
  | Object fields =>
      (fix all (fs : list (string * Value)) :=
         match fs with
         | [] => true
         | (_, x) :: rest => json_exact x && all rest
         end) fields
  | Null | Bool _ | Str _ | Buffer _ => true
  end.

End JS.

(** ** The Socket.IO runtime the servers run on *)

Module SocketIO.

(** [socket.id] *)
Definition SocketId : Type := string.

(** The reason Socket.IO passes to a [disconnect] listener. *)
Inductive DisconnectReason : Type :=
  | TransportError          (* the connection has encountered an error *)
  | TransportClose          (* the connection was closed *)
  | PingTimeout             (* no pong within the timeout *)
  | ParseError              (* an invalid packet was received *)
  | ForcedClose
  | ClientNamespaceDisconnect
  | ServerNamespaceDisconnect
  | ServerShuttingDown.

(** A transport-level input/output failure, as opposed to a disconnect that
    one side asked for. *)
Definition transport_failure (r : DisconnectReason) : bool :=
  match r with
  | TransportError | TransportClose | PingTimeout => true
  | _ => false
  end.

(** What reaches the server from the network.  A frame comes in a message
    of the transport, whose length in bytes is [size]; the server decodes
    the event name and the arguments only of a message it accepts. *)
Inductive Event : Type :=
  | Connect (id : SocketId)
  | Frame (id : SocketId) (size : N) (event : string) (args : list JS.Value)
  | Disconnect (id : SocketId) (reason : DisconnectReason).

(** [maxHttpBufferSize], the longest message the server accepts.  Neither
    [server.ts] sets the option, so it is Socket.IO's default of 1e6
    bytes. *)
Definition maxHttpBufferSize : N := 1000000.

(** The event names Socket.IO keeps for itself; a frame of such a name is an
    invalid packet. *)
Definition reserved : list string :=
  ["connect"; "connect_error"; "disconnect"; "disconnecting";
   "newListener"; "removeListener"].

(** What the server does that can be observed: a line on the console, or an
    event emitted to one connected socket, with the arguments as that socket
    decodes them. *)
Inductive Effect : Type :=
  | ConsoleLog (args : list JS.Value)
  | Emit (to : SocketId) (event : string) (args : list JS.Value).

(** The only state either server has: the namespace's table of connected
    sockets.  Neither [server.ts] declares a variable that outlives a
    callback. *)
Record Server : Type := { connected : gset SocketId }.

Definition init : Server := {| connected := ∅ |}.

(** The listeners a connection callback registers with [socket.on]. *)
Record Listeners : Type := {
  (** [socket.on(name, listener)] for the application's events *)
  on_event : list (string * (JS.Value -> Server -> list Effect));
  (** [socket.on("disconnect", listener)] *)
  on_disconnect : list (DisconnectReason -> list Effect)
}.

(** An application: what its [io.on("connection", (socket) => ...)] callback
    does for the socket [id]: the effects of the callback's body, and the
    listeners it registers. *)
Record App : Type := {
  on_connection : SocketId -> list Effect;
  listeners : SocketId -> Listeners
}.

(** [socket.broadcast.emit(event, arg)]: one emission to every connected
    socket but the sender.  The packet is written as JSON, so what arrives
    is [JS.json arg]. *)
Definition broadcast_emit (sender : SocketId) (event : string) (arg : JS.Value)
    (s : Server) : list Effect :=
  (λ to, Emit to event [JS.json arg]) <$> elements (connected s ∖ {[sender]}).

(** The listeners of [event] are called in registration order with the
    frame's arguments; a listener with one parameter gets the first argument,
    [undefined] when the frame has none. *)
Definition dispatch (ls : Listeners) (event : string) (args : list JS.Value)
    (s : Server) : list Effect :=
  flat_map (λ l : string * (JS.Value -> Server -> list Effect),
              if String.eqb (fst l) event
              then snd l (default JS.Undefined (head args)) s
              else [])
           (on_event ls).

(** The connection of [id] is closed: the socket leaves the table and its
    disconnect listeners run with the reason. *)
Definition close (app : App) (s : Server) (id : SocketId)
    (reason : DisconnectReason) : Server * list Effect :=
  ({| connected := connected s ∖ {[id]} |},
   flat_map (λ l, l reason) (on_disconnect (listeners app id))).

(** One event of the network.  A socket is in the table while its connection
    callback runs and has left it when its disconnect listeners run; frames
    and disconnects of a socket that is not connected reach no listener.  A
    message longer than [maxHttpBufferSize] is not read and closes the
    connection with a transport error; a frame of a reserved event name
    closes it with a parse error. *)
Definition step (app : App) (s : Server) (e : Event) : Server * list Effect :=
  match e with
  | Connect id =>
      ({| connected := {[id]} ∪ connected s |}, on_connection app id)
  | Frame id size event args =>
      if decide (id ∈ connected s)
      then if decide (maxHttpBufferSize < size)%N
           then close app s id TransportError
           else if decide (event ∈ reserved)
           then close app s id ParseError
           else (s, dispatch (listeners app id) event args s)
      else (s, [])
  | Disconnect id reason =>
      if decide (id ∈ connected s)
      then close app s id reason
      else (s, [])
  end.

(** A run of the server over a sequence of events: the final state and the
    effects in order. *)
Fixpoint run (app : App) (s : Server) (es : list Event) : Server * list Effect :=
  match es with
  | [] => (s, [])
  | e :: rest =>
      let '(s1, out1) := step app s e in
      let '(s2, out2) := run app s1 rest in
      (s2, out1 ++ out2)
  end.

(** What the socket [to] receives among some effects, in order. *)
Fixpoint received (to : SocketId) (effects : list Effect)
    : list (string * list JS.Value) :=
  match effects with
  | [] => []
  | Emit to' event args :: rest =>
      if decide (to' = to) then (event, args) :: received to rest
      else received to rest
  | ConsoleLog _ :: rest => received to rest
  end.

(** The sockets some effects emit to. *)
Fixpoint recipients (effects : list Effect) : gset SocketId :=
  match effects with
  | [] => ∅
  | Emit to _ _ :: rest => {[to]} ∪ recipients rest
  | ConsoleLog _ :: rest => recipients rest
  end.

(** The emissions among some effects without what they carry: recipient
    and event name, in order. *)
Fixpoint targets (effects : list Effect) : list (SocketId * string) :=
  match effects with
  | [] => []
  | Emit to event _ :: rest => (to, event) :: targets rest
  | ConsoleLog _ :: rest => targets rest
  end.

(** The console lines among some effects. *)
Fixpoint console (effects : list Effect) : list (list JS.Value) :=
  match effects with
  | [] => []
  | ConsoleLog args :: rest => args :: console rest
  | Emit _ _ _ :: rest => console rest
  end.

End SocketIO.

(** ** The Express layer stack *)

Module Express.

Inductive Method : Type := GET | HEAD | POST | PUT | PATCH | DELETE | OPTIONS.

Definition method_eqb (a b : Method) : bool :=
  match a, b with
  | GET, GET | HEAD, HEAD | POST, POST | PUT, PUT
  | PATCH, PATCH | DELETE, DELETE | OPTIONS, OPTIONS => true
  | _, _ => false
  end.

Record Request : Type := {
  method : Method;
  path : string;
  req_headers : list (string * string);
  raw_body : list Byte.byte;
  (** [req.body], filled in by a body parser *)
  body : JS.Value
}.

Inductive Body : Type :=
  | NoBody
  | Text (s : string)
  | Json (v : JS.Value)
  (** the HTML page Express's final handler writes around a message *)
  | ErrorPage (message : string).

(** A response as the client gets it: the status, the headers in the order
    they were first set, and the body.  [Content-Length] and [ETag], which
    follow from the body's bytes, are left out. *)
Record Response : Type := {
  status : nat;
  res_headers : list (string * string);
  res_body : Body
}.

(** The response object a request starts with: Express names itself before
    the first layer runs. *)
Definition fresh_response : Response :=
  {| status := 200; res_headers := [("X-Powered-By", "Express")];
     res_body := NoBody |}.

(** A middleware either calls [next()], having possibly changed the request
    and the response under construction, or ends the response itself. *)
Inductive Handled : Type :=
  | Next (req : Request) (res : Response)
  | Done (res : Response).

Definition Middleware : Type := Request -> Response -> Handled.

(** [app.use(mw)] and [app.get(path, handler)], in the order the calls are
    made. *)
Inductive Layer : Type :=
  | Use (mw : Middleware)
  | Get (route : string) (handler : Request -> Response -> Response).

(** A letter of ASCII in lower case; header names and, by default, route
    paths are compared without regard to case. *)
Definition lower_ascii (c : Ascii.ascii) : Ascii.ascii :=
  let n := Ascii.nat_of_ascii c in
  if (65 <=? n) && (n <=? 90) then Ascii.ascii_of_nat (n + 32) else c.

Fixpoint lower (s : string) : string :=
  match s with
  | EmptyString => EmptyString
  | String c rest => String (lower_ascii c) (lower rest)
  end.

(** [res.setHeader(name, value)]: a header of that name keeps its place and
    takes the value, a new one is added last. *)
Fixpoint set_header (name value : string) (hs : list (string * string))
    : list (string * string) :=
  match hs with
  | [] => [(name, value)]
  | (n, v) :: rest =>
      if String.eqb (lower n) (lower name) then (name, value) :: rest
      else (n, v) :: set_header name value rest
  end.

(** [res.removeHeader(name)] *)
Definition remove_header (name : string) (hs : list (string * string))
    : list (string * string) :=
  filter (λ h, lower h.1 ≠ lower name) hs.

(** [res.json(v)]: the status set so far (200 unless changed), a JSON
    content type and the value, written as JSON, as the body. *)
Definition res_json (v : JS.Value) (res : Response) : Response :=
  {| status := status res;
     res_headers :=
       set_header "Content-Type" "application/json; charset=utf-8"
                  (res_headers res);
     res_body := Json (JS.json v) |}.

(** The path of a request is the route's: with the default settings of an
    Express application (no strict and no case sensitive routing) letter
    case does not count and one trailing slash is allowed.  The routes here
    have no parameter and no wildcard. *)
Definition path_matches (route path : string) : bool :=
  String.eqb (lower path) (lower route)
  || String.eqb (lower path) (lower route +:+ "/").

(** A [Get] layer takes the request when the path is the route's and the
    method is GET or HEAD. *)
Definition route_matches (route : string) (req : Request) : bool :=
  (method_eqb (method req) GET || method_eqb (method req) HEAD)
  && path_matches route (path req).

Definition method_name (m : Method) : string :=
  match m with
  | GET => "GET" | HEAD => "HEAD" | POST => "POST" | PUT => "PUT"
  | PATCH => "PATCH" | DELETE => "DELETE" | OPTIONS => "OPTIONS"
  end.

(** A response to a HEAD request is sent without its body. *)
Definition sent (req : Request) (res : Response) : Response :=
  if method_eqb (method req) HEAD
  then {| status := status res; res_headers := res_headers res;
          res_body := NoBody |}
  else res.

(** What Express answers when no layer ended the response: the final
    handler's 404 page, with its own headers. *)
Definition not_found (req : Request) (res : Response) : Response :=
  sent req
    {| status := 404;
       res_headers :=
         set_header "Content-Type" "text/html; charset=utf-8"
           (set_header "X-Content-Type-Options" "nosniff"
              (set_header "Content-Security-Policy" "default-src 'none'"
                 (remove_header "Content-Range"
                    (remove_header "Content-Language"
                       (remove_header "Content-Encoding" (res_headers res))))));
       res_body := ErrorPage ("Cannot " +:+ method_name (method req)
                              +:+ " " +:+ path req) |}.

(** What Express answers to an OPTIONS request that no layer ended and
    whose path is a route's: the methods of the route. *)
Definition options_response (res : Response) : Response :=
  {| status := status res;
     res_headers :=
       set_header "Content-Type" "text/html; charset=utf-8"
         (set_header "Allow" "GET,HEAD" (res_headers res));
     res_body := Text "GET,HEAD" |}.

(** The request walks down the stack until a layer ends the response;
    [allow] tells whether an OPTIONS request has passed a route of its
    path. *)
Fixpoint walk (stack : list Layer) (req : Request) (res : Response)
    (allow : bool) : Response :=
  match stack with
  | [] => if allow then options_response res else not_found req res
  | Use mw :: rest =>
      match mw req res with
      | Next req' res' => walk rest req' res' allow
      | Done res' => res'
      end
  | Get route handler :: rest =>
      if route_matches route req then sent req (handler req res)
      else walk rest req res
             (allow || (method_eqb (method req) OPTIONS
                        && path_matches route (path req)))
  end.

Definition handle (stack : list Layer) (req : Request) : Response :=
  walk stack req fresh_response false.

End Express.

(** ** The checked-in backend entry point *)

Module Backend.
Import JS SocketIO Express.

(** [console.log("⚡ New client connected:", socket.id)] *)
Definition log_connected (id : SocketId) : Effect :=
  ConsoleLog [Str "⚡ New client connected:"; Str id].

(** [() => console.log("❌ Client disconnected:", socket.id)] *)
Definition log_disconnected (id : SocketId) : DisconnectReason -> list Effect :=
  λ _, [ConsoleLog [Str "❌ Client disconnected:"; Str id]].

(** [io.on("connection", (socket) => { ... })]: one log line, and one
    listener, for [disconnect]. *)
Definition app : App :=
  {| on_connection := λ id, [log_connected id];
     listeners := λ id,
       {| on_event := [];
          on_disconnect := [log_disconnected id] |} |}.

Section Http.
(** [cors()] and [express.json()]: library middlewares. *)
Variables cors json : Middleware.

(** [app.use(cors()); app.use(express.json());] and no route. *)
Definition stack : list Layer := [Use cors; Use json].

Definition http (req : Request) : Response := handle stack req.
End Http.

End Backend.

(** ** The [server.ts] the scaffolding script writes *)

Module Scaffold.
Import JS SocketIO Express.

Definition log_connected (id : SocketId) : Effect :=
  ConsoleLog [Str "⚡ New client connected:"; Str id].

Definition log_disconnected (id : SocketId) : DisconnectReason -> list Effect :=
  λ _, [ConsoleLog [Str "❌ Client disconnected:"; Str id]].

(** [payload && payload.type ? payload.type : "unknown"] *)
Definition logged_type (payload : Value) : Value :=
  cond (and_then payload dot_type) (dot_type payload) (Str "unknown").

(** The [message] listener of the socket [sender]:
    [console.log("→ message received (server routing):", ...);
     socket.broadcast.emit("message", payload);] *)
Definition on_message (sender : SocketId) (payload : Value) (s : Server)
    : list Effect :=
  ConsoleLog [Str "→ message received (server routing):"; logged_type payload]
  :: broadcast_emit sender "message" payload s.

Definition app : App :=
  {| on_connection := λ id, [log_connected id];
     listeners := λ id,
       {| on_event := [("message", on_message id)];
          on_disconnect := [log_disconnected id] |} |}.

(** [(_req, res) => res.json({ ok: true })] *)
Definition health : Request -> Response -> Response :=
  λ _req res, res_json (Object [("ok", Bool true)]) res.

Section Http.
(** [cors()] and [express.json()]: library middlewares. *)
Variables cors json : Middleware.

(** [app.use(cors()); app.use(express.json()); app.get("/health", ...);] *)
Definition stack : list Layer := [Use cors; Use json; Get "/health" health].

Definition http (req : Request) : Response := handle stack req.
End Http.

End Scaffold.

(** ** Frames and runs the statements below are about *)

Module Wire.
Import JS SocketIO.

(** A frame as a client of the relay sends it: an object with the members
    [type], [target] (a session or a room) and [payload] (the ciphertext). *)
Definition frame (type target : string) (payload : Value) : Value :=
  Object [("type", Str type); ("target", Str target); ("payload", payload)].

(** The socket [id] does not connect during these events. *)
Definition stays_away (id : SocketId) (es : list Event) : Prop :=
  Forall (λ e, e ≠ Connect id) es.

(** An event without what its frame carries: the arguments are dropped,
    and of the message's length only whether the server accepts it is
    kept. *)
Definition without_payload (e : Event) : Event :=
  match e with
  | Frame id size event _ =>
      Frame id (if decide (maxHttpBufferSize < size)%N
                then N.succ maxHttpBufferSize else 0%N) event []
  | _ => e
  end.

(** The two servers of the repository. *)
Definition servers : list App := [Backend.app; Scaffold.app].

(** The two lines either server writes for a socket. *)
Definition connection_line (line : list Value) : Prop :=
  ∃ id : SocketId,
    line = [Str "⚡ New client connected:"; Str id]
    ∨ line = [Str "❌ Client disconnected:"; Str id].

(** Sample data: three connected sockets and a frame for a room. *)
Definition three_clients : Server := {| connected := {["A"; "B"; "C"]} |}.

Definition hello : Value :=
  frame "send" "room-R" (Buffer [Byte.x68; Byte.x65; Byte.x6c; Byte.x6c; Byte.x6f]).

(** A string of [n] letters, and a payload that alone is longer than the
    server accepts. *)
Fixpoint letters (n : nat) : string :=
  match n with
  | 0 => ""
  | S n => String (Ascii.ascii_of_nat 97) (letters n)
  end.

Definition too_long : Value :=
  Str (letters (N.to_nat (N.succ maxHttpBufferSize))).

(** [-0], which JSON writes as [0]. *)
Definition minus_zero : Value := Number (S754_zero true).

(** Sample middlewares: one that adds a header to the response and calls
    [next()], as [cors()] does for a simple request, and one that calls
    [next()] at once, as a body parser does for a request without a body. *)
Definition adds_header : Express.Middleware :=
  λ req res,
    Express.Next req
      {| Express.status := Express.status res;
         Express.res_headers :=
           Express.res_headers res ++ [("Access-Control-Allow-Origin", "*")];
         Express.res_body := Express.res_body res |}.

Definition calls_next : Express.Middleware := λ req res, Express.Next req res.

Definition get_health : Express.Request :=
  {| Express.method := Express.GET; Express.path := "/health";
     Express.req_headers := []; Express.raw_body := [];
     Express.body := Undefined |}.

End Wire.

(** ** The relay of the specification *)

(** Modelled from the spec: the Session Registry (§4.1), the Room Directory's
    membership operations (§4.2), the Message Relay's [send] with its
    per-session pending queues (§4.3) and the Expiry Scheduler's sweep
    (§4.4).  No source file implements any of them.  Identifiers that the
    specification has the server draw at random are supplied by the caller.
    Every envelope gets a sequence number when it is sent, and the delivery
    state of §3 is recorded per envelope in a ledger that keeps the states
    of discarded envelopes too: it is the history the statements about
    delivery states are made of.  An envelope is pending from its creation
    until no pending queue holds it any more.  Reaping empty rooms after a
    grace period is left out. *)
Module Relay.

Abbreviation SessionId := string.
Abbreviation RoomId := string.
Abbreviation Time := Z.
Abbreviation EnvelopeId := nat.

(** Modelled from the spec: the error taxonomy of §7, as far as the
    operations below raise it. *)
Inductive Error : Type :=
  | NotFound
  | Unauthorized
  | InvalidParameter
  | InvalidEnvelope
  | RoomFull
  | RoomExpired.

(** Modelled from the spec: §3, Session.  [connection] tells whether the
    weakly referenced connection handle is still live. *)
Record Session : Type := {
  session_created : Time;
  last_activity : Time;
  session_ttl : Time;
  connection : bool
}.

(** Modelled from the spec: §3, Room. *)
Record Room : Type := {
  room_created : Time;
  room_ttl : Time;
  members : gset SessionId;
  max_members : option nat
}.

(** Modelled from the spec: §3, an envelope's recipient is a single
    session or a room. *)
Inductive Target : Type :=
  | ToSession (sid : SessionId)
  | ToRoom (rid : RoomId).

(** Modelled from the spec: §3, the delivery state of an envelope. *)
Inductive DeliveryState : Type := Pending | Delivered | Expired.

#[global] Instance DeliveryState_eq_dec : EqDecision DeliveryState.
Proof. solve_decision. Defined.

(** Modelled from the spec: §3, Envelope.  A malformed envelope is one whose
    sender or recipient is missing (§4.3, failure semantics). *)
Record Envelope : Type := {
  blob : list Byte.byte;
  sender : option SessionId;
  recipient : option Target;
  envelope_created : Time;
  delivery_ttl : Time
}.

(** Modelled from the spec: an envelope as the relay holds it for one
    recipient, with the number it got when it was sent. *)
Definition Copy : Type := EnvelopeId * Envelope.

(** Modelled from the spec: the registry's sessions, the directory's rooms,
    the relay's pending queue per session (oldest first), and the history:
    the delivery state of every envelope ever sent and the number of
    envelopes sent so far. *)
Record State : Type := {
  sessions : gmap SessionId Session;
  rooms : gmap RoomId Room;
  pending : gmap SessionId (list Copy);
  ledger : gmap EnvelopeId DeliveryState;
  sent : EnvelopeId
}.

Definition init : State :=
  {| sessions := ∅; rooms := ∅; pending := ∅; ledger := ∅; sent := 0 |}.

(** Modelled from the spec: the environment configuration of §6. *)
Record Config : Type := {
  capacity : nat;          (* pending-queue capacity *)
  connection_ttl : Time    (* the default session TTL *)
}.

(** Modelled from the spec: a push of an envelope's bytes over a
    recipient's transport handle. *)
Record Push : Type := {
  push_to : SessionId;
  push_id : EnvelopeId;
  push_blob : list Byte.byte
}.

Definition push (r : SessionId) (c : Copy) : Push :=
  {| push_to := r; push_id := c.1; push_blob := blob c.2 |}.

(** How many times a recipient was pushed an envelope. *)
Definition pushes (k : EnvelopeId * SessionId) (out : list Push) : nat :=
  length (filter (λ p, (push_id p, push_to p) = k) out).

(** The pending queue of a session, oldest first. *)
Definition queue (st : State) (r : SessionId) : list Copy :=
  default [] (pending st !! r).

(** *** Session Registry *)

(** Modelled from the spec: [lookup(session_id) -> Session | NotFound]. *)
Definition lookup (sid : SessionId) (st : State) : Error + Session :=
  match sessions st !! sid with
  | Some s => inr s
  | None => inl NotFound
  end.

(** Modelled from the spec: [create_session()] registers a new identifier
    with the default TTL. *)
Definition create_session (cfg : Config) (now : Time) (sid : SessionId)
    (st : State) : State :=
  match sessions st !! sid with
  | Some _ => st
  | None =>
      {| sessions := <[sid := {| session_created := now; last_activity := now;
                                  session_ttl := connection_ttl cfg;
                                  connection := true |}]> (sessions st);
         rooms := rooms st; pending := pending st; ledger := ledger st;
         sent := sent st |}
  end.

(** Modelled from the spec: [touch(session_id)] refreshes last-activity and
    fails with [NotFound] if the session is absent. *)
Definition touch (now : Time) (sid : SessionId) (st : State) : Error + State :=
  match sessions st !! sid with
  | Some s =>
      inr {| sessions := <[sid := {| session_created := session_created s;
                                      last_activity := now;
                                      session_ttl := session_ttl s;
                                      connection := connection s |}]> (sessions st);
             rooms := rooms st; pending := pending st; ledger := ledger st;
             sent := sent st |}
  | None => inl NotFound
  end.

Definition set_ledger (l : gmap EnvelopeId DeliveryState) (st : State) : State :=
  {| sessions := sessions st; rooms := rooms st; pending := pending st;
     ledger := l; sent := sent st |}.

(** Some pending queue holds the envelope. *)
Definition held (st : State) (id : EnvelopeId) : Prop :=
  map_Exists (λ _ (q : list Copy), id ∈ q.*1) (pending st).

#[global] Instance held_dec st id : Decision (held st id).
Proof. unfold held. apply _. Defined.

(** Modelled from the spec: the single mutation point of an envelope's
    delivery state.  A pending envelope that no queue holds any more takes
    the terminal state [to]; nothing else changes a state. *)
Definition settle (to : DeliveryState) (st : State) (id : EnvelopeId) : State :=
  if decide (ledger st !! id = Some Pending ∧ ¬ held st id)
  then set_ledger (<[id := to]> (ledger st)) st
  else st.

Definition settle_all (to : DeliveryState) (cs : list Copy) (st : State) : State :=
  foldl (settle to) st cs.*1.

(** Modelled from the spec: the pending copies of a recipient leave its
    queue.  The queue becomes [kept]; the copies [delivered] are pushed in
    order, those [expired] are discarded, and the envelopes that no queue
    holds any more are marked delivered or expired. *)
Definition resettle (r : SessionId) (kept delivered expired : list Copy)
    (acc : State * list Push) : State * list Push :=
  (settle_all Expired expired
     (settle_all Delivered delivered
        {| sessions := sessions acc.1; rooms := rooms acc.1;
           pending := <[r := kept]> (pending acc.1);
           ledger := ledger acc.1; sent := sent acc.1 |}),
   acc.2 ++ (push r <$> delivered)).

Definition without_member (sid : SessionId) (room : Room) : Room :=
  {| room_created := room_created room; room_ttl := room_ttl room;
     members := members room ∖ {[sid]}; max_members := max_members room |}.

(** Modelled from the spec: [destroy(session_id)] removes the session and
    all room memberships, and wipes the state that refers to it: its pending
    envelopes are discarded.  It has no error path. *)
Definition destroy (sid : SessionId) (st : State) : State :=
  settle_all Expired (queue st sid)
    {| sessions := delete sid (sessions st);
       rooms := without_member sid <$> rooms st;
       pending := delete sid (pending st);
       ledger := ledger st;
       sent := sent st |}.

(** The rooms a session is a member of. *)
Definition rooms_of (sid : SessionId) (st : State) : gset RoomId :=
  dom (filter (λ kv, sid ∈ members kv.2) (rooms st)).

(** *** Room Directory *)

(** Modelled from the spec: [members(room_id)]. *)
Definition room_members (rid : RoomId) (st : State) : gset SessionId :=
  match rooms st !! rid with
  | Some room => members room
  | None => ∅
  end.

Definition set_rooms (rs : gmap RoomId Room) (st : State) : State :=
  {| sessions := sessions st; rooms := rs; pending := pending st;
     ledger := ledger st; sent := sent st |}.

(** Modelled from the spec: [create_room(owner, ttl, max_members)] fails
    with [InvalidParameter] if ttl ≤ 0 or max_members < 1.  The owner is the
    room's first member. *)
Definition create_room (now : Time) (rid : RoomId) (owner : SessionId)
    (ttl : Time) (max : option nat) (st : State) : Error + State :=
  if bool_decide (ttl ≤ 0)%Z || bool_decide (max = Some 0) then inl InvalidParameter
  else match sessions st !! owner, rooms st !! rid with
       | Some _, None =>
           inr (set_rooms (<[rid := {| room_created := now; room_ttl := ttl;
                                       members := {[owner]};
                                       max_members := max |}]> (rooms st)) st)
       | _, _ => inl NotFound
       end.

Definition room_expired (now : Time) (room : Room) : bool :=
  bool_decide (room_created room + room_ttl room ≤ now)%Z.

Definition room_full (room : Room) : bool :=
  match max_members room with
  | Some m => bool_decide (m ≤ size (members room))
  | None => false
  end.

(** Modelled from the spec:
    [join(room_id, session_id) -> Ok | RoomFull | RoomExpired | NotFound]. *)
Definition join (now : Time) (rid : RoomId) (sid : SessionId) (st : State)
    : Error + State :=
  match rooms st !! rid, sessions st !! sid with
  | Some room, Some _ =>
      if room_expired now room then inl RoomExpired
      else if bool_decide (sid ∈ members room) then inr st
      else if room_full room then inl RoomFull
      else inr (set_rooms (<[rid := {| room_created := room_created room;
                                       room_ttl := room_ttl room;
                                       members := {[sid]} ∪ members room;
                                       max_members := max_members room |}]>
                             (rooms st)) st)
  | _, _ => inl NotFound
  end.

(** Modelled from the spec: [leave(room_id, session_id)], idempotent. *)
Definition leave (rid : RoomId) (sid : SessionId) (st : State) : State :=
  set_rooms (alter (without_member sid) rid (rooms st)) st.

(** *** Message Relay *)

Definition set_sessions (ss : gmap SessionId Session) (st : State) : State :=
  {| sessions := ss; rooms := rooms st; pending := pending st;
     ledger := ledger st; sent := sent st |}.

(** The session is registered. *)
Definition live (st : State) (sid : SessionId) : bool :=
  bool_decide (is_Some (sessions st !! sid)).

(** The session is registered and its connection handle is live. *)
Definition online (st : State) (sid : SessionId) : bool :=
  match sessions st !! sid with
  | Some s => connection s
  | None => false
  end.

(** Modelled from the spec: the delivery TTL of the copy has elapsed. *)
Definition expired_at (now : Time) (c : Copy) : Prop :=
  (envelope_created c.2 + delivery_ttl c.2 ≤ now)%Z.

#[global] Instance expired_at_dec now c : Decision (expired_at now c).
Proof. unfold expired_at. apply _. Defined.

(** Modelled from the spec: step 2 of [send], a single-session lookup or the
    room's membership at send time; the sender of a room envelope is not one
    of its recipients. *)
Definition resolve (st : State) (from : SessionId) (t : Target)
    : Error + gset SessionId :=
  match t with
  | ToSession r =>
      match sessions st !! r with
      | Some _ => inr {[r]}
      | None => inl NotFound
      end
  | ToRoom rid =>
      match rooms st !! rid with
      | Some room => inr (members room ∖ {[from]})
      | None => inl NotFound
      end
  end.

(** The [n] most recent elements of a list that is ordered oldest first. *)
Definition most_recent {A : Type} (n : nat) (l : list A) : list A :=
  drop (length l - n) l.

(** Modelled from the spec: step 4 of [send], the envelope is held at the
    end of the recipient's pending queue; on overflow the oldest pending
    envelopes are dropped until the queue fits its capacity.  The state of
    the envelope that is being sent is left to the end of [send]. *)
Definition hold (cap : nat) (r : SessionId) (c : Copy)
    (acc : State * list Push) : State * list Push :=
  let q := queue acc.1 r ++ [c] in
  resettle r (most_recent cap q) []
    (filter (λ d, d.1 ≠ c.1) (take (length q - cap) q)) acc.

(** Modelled from the spec: steps 3 to 6 of [send] for one recipient.  A
    recipient with a live connection whose transport takes the push gets the
    envelope at once; one without a live connection, or whose transport
    rejects the push ([rejected]), has it held. *)
Definition deliver (cap : nat) (rejected : gset SessionId) (c : Copy)
    (acc : State * list Push) (r : SessionId) : State * list Push :=
  if online acc.1 r && bool_decide (r ∉ rejected)
  then (acc.1, acc.2 ++ [push r c])
  else hold cap r c acc.

(** Modelled from the spec: an envelope is created on send, in the state
    pending, under the next number. *)
Definition next_envelope (st : State) : State :=
  {| sessions := sessions st; rooms := rooms st; pending := pending st;
     ledger := <[sent st := Pending]> (ledger st); sent := S (sent st) |}.

(** Modelled from the spec: step 5 of [send].  After the fan-out an
    envelope that no queue holds is settled: it is delivered when it was
    pushed to a recipient, and discarded as expired when it reached
    nobody. *)
Definition conclude (id : EnvelopeId) (acc : State * list Push)
    : State * list Push :=
  (settle (if bool_decide (acc.2 = []) then Expired else Delivered) acc.1 id,
   acc.2).

(** Modelled from the spec: [send(envelope)]. *)
Definition send (cfg : Config) (rejected : gset SessionId) (env : Envelope)
    (st : State) : Error + State * list Push :=
  match sender env, recipient env with
  | Some from, Some t =>
      if live st from then
        match resolve st from t with
        | inr rs =>
            inr (conclude (sent st)
                   (foldl (deliver (capacity cfg) rejected (sent st, env))
                          (next_envelope st, []) (elements rs)))
        | inl err => inl err
        end
      else inl Unauthorized
  | _, _ => inl InvalidEnvelope
  end.

Definition with_connection (up : bool) (s : Session) : Session :=
  {| session_created := session_created s; last_activity := last_activity s;
     session_ttl := session_ttl s; connection := up |}.

(** Modelled from the spec: the weakly referenced connection handle of a
    session has died. *)
Definition connection_lost (sid : SessionId) (st : State) : State :=
  set_sessions (alter (with_connection false) sid (sessions st)) st.

(** Modelled from the spec: the recipient reconnects; the envelopes held
    for it whose delivery TTL has not elapsed are pushed in order, the others
    are discarded. *)
Definition reconnect (now : Time) (r : SessionId) (st : State)
    : State * list Push :=
  match sessions st !! r with
  | Some s =>
      resettle r []
        (filter (λ c, ¬ expired_at now c) (queue st r))
        (filter (λ c, expired_at now c) (queue st r))
        (set_sessions (<[r := with_connection true s]> (sessions st)) st, [])
  | None => (st, [])
  end.

(** *** Expiry Scheduler *)

Definition session_expired (now : Time) (s : Session) : Prop :=
  (last_activity s + session_ttl s ≤ now)%Z.

#[global] Instance session_expired_dec now s : Decision (session_expired now s).
Proof. unfold session_expired. apply _. Defined.

(** Modelled from the spec: the pending envelopes of one session whose
    delivery TTL has elapsed are discarded. *)
Definition expire_queue (now : Time) (st : State) (r : SessionId) : State :=
  (resettle r
     (filter (λ c, ¬ expired_at now c) (queue st r)) []
     (filter (λ c, expired_at now c) (queue st r))
     (st, [])).1.

(** Modelled from the spec: one sweep destroys the sessions past their TTL,
    removes the rooms past theirs and discards the pending envelopes past
    their delivery TTL. *)
Definition sweep (now : Time) (st : State) : State :=
  let st1 := foldl (λ st sid, destroy sid st) st
               (elements (dom (filter (λ kv, session_expired now kv.2) (sessions st)))) in
  let st2 := set_rooms (filter (λ kv, ¬ room_expired now kv.2) (rooms st1)) st1 in
  foldl (expire_queue now) st2 (elements (dom (pending st2))).

(** *** The relay as a transition system *)

(** Modelled from the spec: what the Transport Gateway and the Expiry
    Scheduler ask of the other components (§4.4, §4.5). *)
Inductive Event : Type :=
  | Handshake (sid : SessionId) (now : Time)
  | Activity (sid : SessionId) (now : Time)
  | CreateRoom (rid : RoomId) (owner : SessionId) (now ttl : Time) (max : option nat)
  | Join (rid : RoomId) (sid : SessionId) (now : Time)
  | Leave (rid : RoomId) (sid : SessionId)
  | Send (env : Envelope) (rejected : gset SessionId)
  | ConnectionLost (sid : SessionId)
  | Reconnect (sid : SessionId) (now : Time)
  | Disconnect (sid : SessionId)
  | Sweep (now : Time).

(** A rejected request leaves the state as it is. *)
Definition or_unchanged (st : State) (r : Error + State) : State :=
  match r with
  | inr st' => st'
  | inl _ => st
  end.

(** Modelled from the spec: one request, with the pushes it causes.  A
    disconnect destroys the session at once (§4.5). *)
Definition step (cfg : Config) (st : State) (e : Event) : State * list Push :=
  match e with
  | Handshake sid now => (create_session cfg now sid st, [])
  | Activity sid now => (or_unchanged st (touch now sid st), [])
  | CreateRoom rid owner now ttl max =>
      (or_unchanged st (create_room now rid owner ttl max st), [])
  | Join rid sid now => (or_unchanged st (join now rid sid st), [])
  | Leave rid sid => (leave rid sid st, [])
  | Send env rejected =>
      match send cfg rejected env st with
      | inr res => res
      | inl _ => (st, [])
      end
  | ConnectionLost sid => (connection_lost sid st, [])
  | Reconnect sid now => reconnect now sid st
  | Disconnect sid => (destroy sid st, [])
  | Sweep now => (sweep now st, [])
  end.

Fixpoint run (cfg : Config) (st : State) (es : list Event) : State * list Push :=
  match es with
  | [] => (st, [])
  | e :: rest =>
      let '(st1, out1) := step cfg st e in
      let '(st2, out2) := run cfg st1 rest in
      (st2, out1 ++ out2)
  end.



(** The envelope is recorded in a terminal state. *)
Definition terminal_state (o : option DeliveryState) : Prop :=
  o = Some Delivered ∨ o = Some Expired.

(** *** Invariants of the relay *)

(** Every envelope that a queue holds is recorded as pending. *)
Definition pending_recorded (st : State) : Prop :=
  ∀ r c, c ∈ queue st r → ledger st !! c.1 = Some Pending.

(** No envelope is twice in one queue. *)
Definition pending_distinct (st : State) : Prop :=
  ∀ r, NoDup (queue st r).*1.

(** Every recorded envelope was numbered by an earlier [send]. *)
Definition numbered (st : State) : Prop :=
  ∀ id, is_Some (ledger st !! id) → id < sent st.

(** No queue is longer than the capacity. *)
Definition bounded (cfg : Config) (st : State) : Prop :=
  ∀ r, length (queue st r) ≤ capacity cfg.

Record wf (cfg : Config) (st : State) : Prop := {
  wf_recorded : pending_recorded st;
  wf_distinct : pending_distinct st;
  wf_numbered : numbered st;
  wf_bounded : bounded cfg st
}.

(** Each recipient was pushed each envelope at most once, and an envelope
    that was pushed to a recipient has been numbered and is not held for
    that recipient. *)
Definition pushed_once (st : State) (out : list Push) : Prop :=
  ∀ id r, pushes (id, r) out ≤ 1
          ∧ (0 < pushes (id, r) out → id < sent st ∧ id ∉ (queue st r).*1).

(** How the recorded state of one envelope may differ between a state and
    a later one: an envelope appears, a pending envelope stays recorded, a
    settled envelope stays as it is. *)
Definition advances (o o' : option DeliveryState) : Prop :=
  match o with
  | None => True
  | Some Pending => is_Some o'
  | Some s => o' = Some s
  end.

(** An operation on the state that pushes nothing keeps the invariants and
    moves every recorded state forward. *)
Definition preserving (cfg : Config) (f : State → State) : Prop :=
  ∀ st out, wf cfg st → pushed_once st out →
    wf cfg (f st) ∧ pushed_once (f st) out
    ∧ ∀ k, advances (ledger st !! k) (ledger (f st) !! k).

(** The envelope is well formed, its sender is registered and it is
    addressed to the session [r]. *)
Definition addressed_to (st : State) (r : SessionId) (env : Envelope) : Prop :=
  recipient env = Some (ToSession r)
  ∧ ∃ from, sender env = Some from ∧ is_Some (sessions st !! from).

(** Sample data: two sessions, B without a live connection, and envelopes
    from A to B. *)
Definition sample_session (up : bool) : Session :=
  {| session_created := 0%Z; last_activity := 0%Z; session_ttl := 3600%Z;
     connection := up |}.

Definition sample_state : State :=
  {| sessions := <["A" := sample_session true]> {["B" := sample_session false]};
     rooms := {["R" := {| room_created := 0%Z; room_ttl := 60%Z;
                          members := {["A"; "B"]}; max_members := None |}]};
     pending := ∅; ledger := ∅; sent := 0 |}.

Definition sample_envelope (byte : Byte.byte) : Envelope :=
  {| blob := [byte]; sender := Some "A"; recipient := Some (ToSession "B");
     envelope_created := 0%Z; delivery_ttl := 5%Z |}.

Definition sample_config : Config :=
  {| capacity := 2; connection_ttl := 3600%Z |}.

(** The room scenario: A and B shake hands, A creates the room R with a TTL
    of 60, B joins, A sends an envelope to R. *)
Definition room_envelope : Envelope :=
  {| blob := [Byte.x68; Byte.x65; Byte.x6c; Byte.x6c; Byte.x6f];
     sender := Some "A"; recipient := Some (ToRoom "R");
     envelope_created := 2%Z; delivery_ttl := 5%Z |}.

(** The expiry scenario: B loses its connection, A sends it two envelopes
    with a delivery TTL of 5, at 0 and at 4, and B reconnects at 6. *)
Definition timed_envelope (byte : Byte.byte) (at_time : Z) : Envelope :=
  {| blob := [byte]; sender := Some "A"; recipient := Some (ToSession "B");
     envelope_created := at_time; delivery_ttl := 5%Z |}.

Definition expiry_scenario : list Event :=
  [Handshake "A" 0%Z; Handshake "B" 0%Z; ConnectionLost "B";
   Send (timed_envelope Byte.x01 0%Z) ∅; Send (timed_envelope Byte.x02 4%Z) ∅;
   Reconnect "B" 6%Z].

Definition room_scenario : list Event :=
  [Handshake "A" 0%Z; Handshake "B" 0%Z;
   CreateRoom "R" "A" 1%Z 60%Z None; Join "R" "B" 1%Z;
   Send room_envelope ∅].

End Relay.

(** ** What a run delivers *)

Module Observe.
Import JS SocketIO Express.

(** What the scaffolded server hands to the socket [to] for one event while
    the connection table is [table]: the first argument, as JSON carries it,
    of a [message] frame of another connected socket that is within the size
    limit. *)
Definition relayed (table : gset SocketId) (to : SocketId) (e : Event)
    : option (string * list Value) :=
  match e with
  | Frame id size event args =>
      if decide (id ∈ table ∧ (size ≤ maxHttpBufferSize)%N ∧ event = "message")
      then if decide (to ∈ table ∧ to ≠ id)
           then Some ("message", [json (default Undefined (head args))])
           else None
      else None
  | _ => None
  end.

(** A frame the server accepts: within the size limit and of no reserved
    name. *)
Definition accepted (e : Event) : Prop :=
  ∃ id size event args,
    e = Frame id size event args
    ∧ (size ≤ maxHttpBufferSize)%N ∧ event ∉ reserved.

(** The events are frames the server accepts: nobody connects or
    disconnects. *)
Definition frames_only (es : list Event) : Prop := Forall accepted es.

(** A console line of the connection callback or of the disconnect
    listener, the two that both servers write. *)
Definition lifecycle (e : Effect) : bool :=
  match e with
  | ConsoleLog [Str label; Str _] =>
      String.eqb label "⚡ New client connected:"
      || String.eqb label "❌ Client disconnected:"
  | _ => false
  end.

(** The request asks to change something: POST, PUT, PATCH or DELETE. *)
Definition writes (req : Request) : bool :=
  match method req with
  | POST | PUT | PATCH | DELETE => true
  | _ => false
  end.

Definition post_message_send : Request :=
  {| method := POST; path := "/message/send"; req_headers := [];
     raw_body := []; body := Object [("payload", Str "ciphertext")] |}.

End Observe.

(** ** Startup: the port *)

Module Startup.
Import JS.

(** The value of [process.env.PORT || 5000]: the environment's string, or
    the number. *)
Inductive Port : Type :=
  | FromEnv (value : string)
  | Literal (n : N).

(** [process.env.PORT || 5000].  A variable of the environment is a string
    when it is set and [undefined] when it is not; the empty string is
    falsy. *)
Definition PORT (env_port : option string) : Port :=
  match env_port with
  | Some value => if truthy (Str value) then FromEnv value else Literal 5000
  | None => Literal 5000
  end.

(** The port as a template literal prints it. *)
Definition port_text (p : Port) : string :=
  match p with
  | FromEnv value => value
  | Literal n => NilZero.string_of_uint (N.to_uint n)
  end.

(** [server.listen(PORT, callback)], the last statement of both
    [server.ts]: the port handed to [listen], and the line the callback
    writes once the server listens,
    [console.log(`🚀 Veil Backend running on http://localhost:${PORT}`)]. *)
Record Listen : Type := {
  port : Port;
  on_listening : string
}.

Definition startup (env_port : option string) : Listen :=
  {| port := PORT env_port;
     on_listening := "🚀 Veil Backend running on http://localhost:"
                     +:+ port_text (PORT env_port) |}.

End Startup.

(** ** The scripts the scaffolding script writes into [package.json] *)

Module PackageJson.
Import JS.

(** [o.key = v] on a plain object: a member of that name is replaced where
    it stands, a new one is added at the end. *)
Fixpoint assign (key : string) (v : Value) (fields : list (string * Value))
    : list (string * Value) :=
  match fields with
  | [] => [(key, v)]
  | (k, x) :: rest =>
      if String.eqb k key then (k, v) :: rest else (k, x) :: assign key v rest
  end.

(** [a || b] *)
Definition or_else (a b : Value) : Value := if truthy a then a else b.

(** [pkg.scripts.name = command] where [pkg.scripts] holds [scripts], which
    is truthy, as [JSON.stringify] will see it afterwards.  On a plain
    object the member is assigned.  On a string, a number or [true] the
    assignment does nothing (the script is not in strict mode), and on an
    array or a buffer it sets a named property that [JSON.stringify] does
    not write. *)
Definition set_script (scripts : Value) (entry : string * string) : Value :=
  match scripts with
  | Object fields => Object (assign entry.1 (Str entry.2) fields)
  | _ => scripts
  end.

(** The script that adds [entries] to the scripts of a package:
    [pkg.scripts = pkg.scripts || {}; pkg.scripts.dev = ...; ...], from the
    value [JSON.parse] returned to the value [JSON.stringify] is given, as
    far as [JSON.stringify] reads it.  [None] is a [TypeError]: [null] has no
    properties to read, and on a string, a number or a boolean the first
    assignment is lost, so that the second statement assigns to a member of
    [undefined].  An array takes [scripts] as a named property, which
    [JSON.stringify] does not write; so would a buffer, which, like
    [undefined], [JSON.parse] never returns. *)
Definition add_scripts (entries : list (string * string)) (pkg : Value)
    : option Value :=
  match pkg with
  | Object fields =>
      let scripts := or_else (default Undefined (field "scripts" fields)) (Object []) in
      Some (Object (assign "scripts" (foldl set_script scripts entries) fields))
  | Array _ | Buffer _ => Some pkg
  | Undefined | Null | Bool _ | Number _ | Str _ => None
  end.

(** One run of the script, from the value [JSON.parse] returns for the file
    it reads to the value [JSON.parse] returns for the file it writes:
    [fs.writeFileSync(path, JSON.stringify(pkg, null, 2))] writes the edited
    package as JSON, which turns a number that is not finite into [null]
    and [-0] into [0].  The members of an object are in the order in which
    [JSON.parse] lists them, which is the order of the file except that
    names that are array indices come first. *)
Definition run (entries : list (string * string)) (pkg : Value) : option Value :=
  json <$> add_scripts entries pkg.

(** The double quote character. *)
Definition quote : string := String (Ascii.ascii_of_nat 34) "".

Definition frontend_lint : string :=
  "eslint " +:+ quote +:+ "src/**/*.{ts,tsx,js,jsx}" +:+ quote
  +:+ " --max-warnings=0 || true".

Definition backend_lint : string :=
  "eslint " +:+ quote +:+ "src/**/*.{ts,js}" +:+ quote
  +:+ " --max-warnings=0 || true".

(** The frontend's scripts. *)
Definition frontend_scripts : list (string * string) :=
  [("dev", "vite");
   ("build", "tsc && vite build");
   ("preview", "vite preview --port 5000");
   ("lint", frontend_lint)].

(** The backend's scripts. *)
Definition backend_scripts : list (string * string) :=
  [("dev", "ts-node src/server.ts");
   ("start", "node dist/server.js");
   ("build", "tsc");
   ("lint", backend_lint)].

(** The names of an object's members, in order. *)
Definition keys (fields : list (string * Value)) : list string := fields.*1.

(** A [package.json] as [npm init -y] leaves it, cut short. *)
Definition fresh_fields : list (string * Value) :=
  [("name", Str "veil-backend"); ("version", Str "1.0.0");
   ("scripts", Object [("test", Str "echo no test && exit 1")]);
   ("license", Str "ISC")].

Definition fresh_package : Value := Object fresh_fields.

(** A [package.json] whose [scripts] member is the number [1e400], which
    [JSON.parse] reads as infinity. *)
Definition odd_package : Value :=
  Object [("name", Str "veil-backend");
          ("scripts", Number (S754_infinity false))].

(** The same after the backend's script. *)
Definition scripted_package : Value :=
  Object [("name", Str "veil-backend"); ("version", Str "1.0.0");
          ("scripts",
           Object [("test", Str "echo no test && exit 1");
                   ("dev", Str "ts-node src/server.ts");
                   ("start", Str "node dist/server.js");
                   ("build", Str "tsc");
                   ("lint", Str backend_lint)]);
          ("license", Str "ISC")].

End PackageJson.

(** ** The landing page's waitlist widget *)

Module LandingPage.

(** The three [useState(false)] of the component. *)
Record State : Type := {
  isWidgetLoaded : bool;
  widgetError : bool;
  widgetInitialized : bool
}.

Definition initial : State :=
  {| isWidgetLoaded := false; widgetError := false; widgetInitialized := false |}.

(** What the waitlist section can show. *)
Inductive Block : Type :=
  | LoadingPlaceholder    (* "Loading waitlist..." *)
  | ErrorNotice           (* "Unable to load the waitlist form. ..." *)
  | WidgetMount.          (* the [div] with [data-key-id="39fnTT"] *)

(** [{cond && <div/>}]: the element when the condition holds, nothing
    otherwise. *)
Definition shown (cond : bool) (b : Block) : list Block :=
  if cond then [b] else [].

(** The three conditional blocks of the waitlist section, in order. *)
Definition waitlist (st : State) : list Block :=
  shown (negb (isWidgetLoaded st) && negb (widgetError st)) LoadingPlaceholder
  ++ shown (widgetError st) ErrorNotice
  ++ shown (isWidgetLoaded st && negb (widgetError st)) WidgetMount.

(** What a callback of the component asks of the browser. *)
Inductive Action : Type :=
  | AppendScript (src : string) (defer : bool)
  | RemoveScript
  | RemoveDuplicatesAfter (ms : nat)
  | ConsoleWarn (msg : string).

(** The callbacks: the effect's body, run while the document has or has not
    a script element of the widget's source; the script element's [onload]
    and [onerror]; and the function the effect returns after it appended the
    script, run while the body does or does not contain that script. *)
Inductive Call : Type :=
  | RunEffect (existing_script : bool)
  | ScriptLoaded
  | ScriptFailed
  | Cleanup (in_body : bool).

Definition widget_src : string := "https://getlaunchlist.com/js/widget.js".

(** One callback, from the flags it finds to the flags it leaves.  The
    setters are only ever called with [true]; what the timer of [onload]
    removes from the document is left to the browser. *)
Definition call (st : State) (c : Call) : State * list Action :=
  match c with
  | RunEffect existing_script =>
      if widgetInitialized st then (st, [])
      else if existing_script
      then ({| isWidgetLoaded := true; widgetError := widgetError st;
               widgetInitialized := true |}, [])
      else (st, [AppendScript widget_src true])
  | ScriptLoaded =>
      ({| isWidgetLoaded := true; widgetError := widgetError st;
          widgetInitialized := true |},
       [RemoveDuplicatesAfter 500])
  | ScriptFailed =>
      ({| isWidgetLoaded := isWidgetLoaded st; widgetError := true;
          widgetInitialized := widgetInitialized st |},
       [ConsoleWarn "Failed to load waitlist widget"])
  | Cleanup in_body =>
      (st, if in_body then [RemoveScript] else [])
  end.

(** The state after some callbacks ran, in that order. *)
Definition after (st : State) (cs : list Call) : State :=
  foldl (λ st c, (call st c).1) st cs.

End LandingPage.
(** * Properties of the two servers *)

Section Servers.
Import JS SocketIO Express Wire.

(** ** What a list of effects delivers *)

Lemma received_app to (xs ys : list Effect) :
  received to (xs ++ ys) = received to xs ++ received to ys.
Proof.
  induction xs as [|[args|to' ev args] xs IH]; simpl; [done|done|].
  case_decide; simpl; by rewrite IH.
Qed.

Lemma recipients_app (xs ys : list Effect) :
  recipients (xs ++ ys) = recipients xs ∪ recipients ys.
Proof.
  induction xs as [|[args|to' ev args] xs IH]; simpl.
  - set_solver.
  - done.
  - rewrite IH. set_solver.
Qed.

Lemma console_app (xs ys : list Effect) :
  console (xs ++ ys) = console xs ++ console ys.
Proof.
  induction xs as [|[args|to' ev args] xs IH]; simpl; [done| |done].
  by rewrite IH.
Qed.

(** A socket receives something exactly when it is one of the recipients. *)
Lemma received_nil_iff to (xs : list Effect) :
  received to xs = [] ↔ to ∉ recipients xs.
Proof.
  induction xs as [|[args|to' ev args] xs IH]; simpl.
  - set_solver.
  - done.
  - case_decide; subst; split; [done|set_solver|set_solver|].
    intros Hn. apply IH. set_solver.
Qed.

(** One emission per socket of a duplicate-free list. *)
Lemma received_emit_each to ev args (l : list SocketId) :
  NoDup l →
  received to ((λ r, Emit r ev args) <$> l)
  = if decide (to ∈ l) then [(ev, args)] else [].
Proof.
  induction 1 as [|r l Hr Hl IH].
  - case_decide as Hin; [by apply elem_of_nil in Hin|done].
  - rewrite fmap_cons. cbn [received]. rewrite IH.
    destruct (decide (r = to)) as [->|Hne].
    + rewrite (decide_False (P := to ∈ l)) by done.
      rewrite decide_True; [done|]. apply elem_of_cons. by left.
    + destruct (decide (to ∈ l)) as [Hin|Hout].
      * rewrite decide_True; [done|]. apply elem_of_cons. by right.
      * rewrite decide_False; [done|].
        rewrite elem_of_cons. intros [->|?]; done.
Qed.

Lemma recipients_emit_each ev args (l : list SocketId) :
  recipients ((λ r, Emit r ev args) <$> l) = list_to_set l.
Proof.
  induction l as [|r l IH]; [done|].
  rewrite fmap_cons. cbn [recipients]. by rewrite IH.
Qed.

Lemma console_emit_each ev args (l : list SocketId) :
  console ((λ r, Emit r ev args) <$> l) = [].
Proof. induction l as [|r l IH]; [done|]. by rewrite fmap_cons. Qed.

(** ** [socket.broadcast.emit] *)

Lemma received_broadcast to sender ev arg s :
  received to (broadcast_emit sender ev arg s)
  = if decide (to ∈ connected s ∧ to ≠ sender) then [(ev, [json arg])] else [].
Proof.
  unfold broadcast_emit. rewrite received_emit_each by apply NoDup_elements.
  destruct (decide (to ∈ connected s ∧ to ≠ sender)) as [[? ?]|Hn].
  - rewrite decide_True; [done|]. apply elem_of_elements. set_solver.
  - rewrite decide_False; [done|]. rewrite elem_of_elements. set_solver.
Qed.

Lemma recipients_broadcast sender ev arg s :
  recipients (broadcast_emit sender ev arg s) = connected s ∖ {[sender]}.
Proof.
  unfold broadcast_emit. rewrite recipients_emit_each.
  apply list_to_set_elements_L.
Qed.

Lemma console_broadcast sender ev arg s :
  console (broadcast_emit sender ev arg s) = [].
Proof. apply console_emit_each. Qed.

(** ** One step of each server *)

(** A frame the server accepts reaches the listeners of its name. *)
Lemma frame_accepted app s id size ev args :
  id ∈ connected s → (size ≤ maxHttpBufferSize)%N → ev ∉ reserved →
  step app s (Frame id size ev args)
  = (s, dispatch (listeners app id) ev args s).
Proof.
  intros Hin Hsize Hev. cbn [step]. rewrite decide_True by done.
  rewrite decide_False by lia. by rewrite decide_False.
Qed.


Lemma frame_unknown app s id size ev args :
  id ∉ connected s → step app s (Frame id size ev args) = (s, []).
Proof. intros Hout. cbn [step]. by rewrite decide_False. Qed.

Lemma message_not_reserved : "message" ∉ reserved.
Proof. unfold reserved. apply (bool_decide_unpack _). vm_compute. exact I. Qed.

Lemma scaffold_dispatch id ev args s :
  dispatch (listeners Scaffold.app id) ev args s
  = if decide (ev = "message")
    then Scaffold.on_message id (default Undefined (head args)) s
    else [].
Proof.
  unfold dispatch, Scaffold.app.
  cbn [listeners on_event flat_map fst snd]. rewrite app_nil_r.
  destruct (String.eqb_spec "message" ev) as [<-|Hne].
  - by rewrite decide_True.
  - rewrite decide_False; [done|]. intros ->. by apply Hne.
Qed.

(** A [message] frame within the size limit on the scaffolded server. *)
Lemma scaffold_message s id size args :
  (size ≤ maxHttpBufferSize)%N →
  step Scaffold.app s (Frame id size "message" args)
  = (s, if decide (id ∈ connected s)
        then Scaffold.on_message id (default Undefined (head args)) s
        else []).
Proof.
  intros Hsize. case_decide as Hin.
  - rewrite frame_accepted by (done || apply message_not_reserved).
    by rewrite scaffold_dispatch, decide_True.
  - by apply frame_unknown.
Qed.


Lemma received_on_message to sender payload s :
  received to (Scaffold.on_message sender payload s)
  = if decide (to ∈ connected s ∧ to ≠ sender)
    then [("message", [json payload])] else [].
Proof. unfold Scaffold.on_message. cbn [received]. apply received_broadcast. Qed.

Lemma recipients_on_message sender payload s :
  recipients (Scaffold.on_message sender payload s) = connected s ∖ {[sender]}.
Proof. unfold Scaffold.on_message. cbn [recipients]. apply recipients_broadcast. Qed.

Lemma console_on_message sender payload s :
  console (Scaffold.on_message sender payload s)
  = [[Str "→ message received (server routing):"; Scaffold.logged_type payload]].
Proof.
  unfold Scaffold.on_message. cbn [console]. by rewrite console_broadcast.
Qed.

(** The listener reads one member of the frame, [type]. *)
Lemma logged_type_object fields :
  Scaffold.logged_type (Object fields)
  = match field "type" fields with
    | Some t => if truthy t then t else Str "unknown"
    | None => Str "unknown"
    end.
Proof.
  unfold Scaffold.logged_type, and_then, cond. cbn [truthy dot_type].
  by destruct (field "type" fields).
Qed.

(** ** Values that JSON carries unchanged *)

Lemma json_object fields : json (Object fields) = Object (json_members fields).
Proof. reflexivity. Qed.

(** Induction on a value, with the items of an array and the members of an
    object. *)
Lemma Value_nested_ind (P : Value → Prop) :
  P Undefined → P Null → (∀ b, P (Bool b)) → (∀ x, P (Number x)) →
  (∀ str, P (Str str)) → (∀ bs, P (Buffer bs)) →
  (∀ items, Forall P items → P (Array items)) →
  (∀ fields, Forall (λ kv, P kv.2) fields → P (Object fields)) →
  ∀ v, P v.
Proof.
  intros HU HN HB HX HS HBuf HA HO.
  exact (fix go (v : Value) : P v :=
           match v with
           | Undefined => HU
           | Null => HN
           | Bool b => HB b
           | Number x => HX x
           | Str str => HS str
           | Buffer bs => HBuf bs
           | Array items =>
               HA items
                 ((fix all (l : list Value) : Forall P l :=
                     match l with
                     | [] => @List.Forall_nil _ P
                     | x :: rest => @List.Forall_cons _ P x rest (go x) (all rest)
                     end) items)
           | Object fields =>
               HO fields
                 ((fix all (l : list (string * Value))
                     : Forall (λ kv, P kv.2) l :=
                     match l with
                     | [] => @List.Forall_nil _ (λ kv, P kv.2)
                     | (k, x) :: rest =>
                         @List.Forall_cons _ (λ kv, P kv.2) (k, x) rest (go x) (all rest)
                     end) fields)
           end).
Qed.

Lemma json_exact_safe v : json_exact v = true → json v = v.
Proof.
  induction v as [| |b|x|str|bs|items IH|fields IH] using Value_nested_ind;
    try done.
  - destruct x as [[]| | |]; done.
  - cbn [json json_exact]. intros Hall. f_equal.
    induction IH as [|x items Hx _ IH]; [done|].
    cbn [forallb] in Hall. apply andb_prop in Hall as [Hex Hall].
    cbn [map]. by rewrite (Hx Hex), IH.
  - rewrite json_object. cbn [json_exact]. intros Hall. f_equal.
    induction IH as [|[k x] fields Hx _ IH]; [done|].
    apply andb_prop in Hall as [Hex Hall]. cbn [snd] in Hx.
    cbn [json_members]. rewrite (Hx Hex), (IH Hall).
    by destruct x.
Qed.

(** A frame with a payload that JSON carries unchanged is carried
    unchanged. *)
Lemma json_frame type target payload :
  json_safe payload → json_safe (frame type target payload).
Proof.
  unfold json_safe, frame. intros Hp. rewrite json_object.
  cbn [json_members json]. rewrite Hp.
  by destruct payload.
Qed.

(** A frame on each server, in full. *)
Lemma scaffold_frame s id size ev args :
  step Scaffold.app s (Frame id size ev args)
  = if decide (id ∈ connected s)
    then if decide ((maxHttpBufferSize < size)%N ∨ ev ∈ reserved)
         then ({| connected := connected s ∖ {[id]} |},
               [ConsoleLog [Str "❌ Client disconnected:"; Str id]])
         else (s, if decide (ev = "message")
                  then Scaffold.on_message id (default Undefined (head args)) s
                  else [])
    else (s, []).
Proof.
  cbn [step]. case_decide as Hin; [|done].
  destruct (decide (maxHttpBufferSize < size)%N) as [Hbig|Hfit].
  - rewrite decide_True by (by left). done.
  - destruct (decide (ev ∈ reserved)) as [Hres|Hev].
    + rewrite decide_True by (by right). done.
    + rewrite decide_False by (by intros [?|?]).
      by rewrite scaffold_dispatch.
Qed.

Lemma backend_frame s id size ev args :
  step Backend.app s (Frame id size ev args)
  = if decide (id ∈ connected s ∧ ((maxHttpBufferSize < size)%N ∨ ev ∈ reserved))
    then ({| connected := connected s ∖ {[id]} |},
          [ConsoleLog [Str "❌ Client disconnected:"; Str id]])
    else (s, []).
Proof.
  cbn [step]. destruct (decide (id ∈ connected s)) as [Hin|Hout].
  - destruct (decide (maxHttpBufferSize < size)%N) as [Hbig|Hfit].
    + rewrite decide_True; [done|]. split; [done|by left].
    + destruct (decide (ev ∈ reserved)) as [Hres|Hev].
      * rewrite decide_True; [done|]. split; [done|by right].
      * rewrite decide_False; [done|]. by intros [_ [?|?]].
  - rewrite decide_False; [done|]. by intros [? _].
Qed.

(** C1 (amended). Whatever a socket receives from the scaffolded server
    because of a frame is the event [message] carrying the frame's first
    argument as JSON carries it: the very value for every payload that JSON
    represents exactly, and otherwise the value with [-0] written as [0] and
    a number that is not finite, or a missing argument, as [null].  The
    server itself changes nothing of the payload and reads one member of it,
    [type], for the console line: two frames with the same [type] member
    give the same line whatever their other members hold.  The only other
    line a frame can cause is the disconnect line of its sender, when the
    frame is refused. *)
Theorem payload_forwarded_as_json (s : Server) (id : SocketId) (size : N)
    (ev : string) (args : list Value) :
  (∀ to name data,
     (name, data) ∈ received to (step Scaffold.app s (Frame id size ev args)).2 →
     name = "message"
     ∧ data = [json (default Undefined (head args))]
     ∧ (json_exact (default Undefined (head args)) = true →
        data = [default Undefined (head args)]))
  ∧ (∀ line,
       line ∈ console (step Scaffold.app s (Frame id size ev args)).2 →
       line = [Str "→ message received (server routing):";
               Scaffold.logged_type (default Undefined (head args))]
       ∨ line = [Str "❌ Client disconnected:"; Str id])
  ∧ (∀ fields fields',
       field "type" fields = field "type" fields' →
       Scaffold.logged_type (Object fields) = Scaffold.logged_type (Object fields')).
Proof.
  rewrite scaffold_frame. split; [|split].
  - intros to name data. repeat case_decide; cbn [snd received];
      try (intros Hin; by apply elem_of_nil in Hin).
    rewrite received_on_message. case_decide.
    + intros Hin. apply list_elem_of_singleton in Hin.
      injection Hin as -> ->. split; [done|]. split; [done|].
      intros Hexact. by rewrite (json_exact_safe _ Hexact).
    + intros Hin. by apply elem_of_nil in Hin.
  - intros line. repeat case_decide; cbn [snd console];
      try (intros Hin; by apply elem_of_nil in Hin).
    + intros Hin. apply list_elem_of_singleton in Hin. by right.
    + rewrite console_on_message. intros Hin.
      apply list_elem_of_singleton in Hin. by left.
  - intros fields fields' Heq. by rewrite !logged_type_object, Heq.
Qed.

Lemma payload_forwarded_as_json_witness :
  ("message", [hello])
    ∈ received "B"
        (step Scaffold.app three_clients (Frame "A" 64 "message" [hello])).2
  ∧ "message" = "message"
  ∧ [hello] = [json (default Undefined (head [hello]))]
  ∧ (json_exact (default Undefined (head [hello])) = true →
     [hello] = [default Undefined (head [hello])]).
Proof.
  assert (Hin : ("message", [hello])
                ∈ received "B" (step Scaffold.app three_clients
                                  (Frame "A" 64 "message" [hello])).2).
  { vm_compute. apply list_elem_of_here. }
  split; [exact Hin|].
  exact (proj1 (payload_forwarded_as_json three_clients "A" 64 "message" [hello])
           "B" "message" [hello] Hin).
Defined.

(** C1, as stated, fails: a payload [-0] reaches B as [0], and a frame
    without argument reaches B as [null]. *)
Lemma payload_not_byte_for_byte :
  received "B"
    (step Scaffold.app three_clients (Frame "A" 16 "message" [minus_zero])).2
  = [("message", [Number (S754_zero false)])]
  ∧ Number (S754_zero false) ≠ minus_zero
  ∧ received "B"
      (step Scaffold.app three_clients (Frame "A" 13 "message" [])).2
    = [("message", [Null])].
Proof. split; [by vm_compute|]. split; [discriminate|by vm_compute]. Qed.

Lemma three_clients_connected :
  "A" ∈ connected three_clients ∧ "B" ∈ connected three_clients
  ∧ "C" ∈ connected three_clients.
Proof. unfold three_clients. cbn [connected]. set_solver. Qed.

Lemma over_the_limit : (maxHttpBufferSize < N.succ maxHttpBufferSize)%N.
Proof. lia. Qed.

(** C2 (amended). On the scaffolded server a frame [message] within the size
    limit from a connected socket reaches every other connected socket, once
    and with the frame's value as JSON carries it, and nobody else: the
    recipients are the connection table minus the sender, whatever the frame
    holds (a target, a room, anything) and whatever the sockets are.  The
    checked-in backend emits the frame to nobody. *)
Theorem message_reaches_all_others (s : Server) (sender : SocketId) (size : N)
    (args : list Value) :
  sender ∈ connected s → (size ≤ maxHttpBufferSize)%N →
  recipients (step Scaffold.app s (Frame sender size "message" args)).2
  = connected s ∖ {[sender]}
  ∧ (∀ to, to ∈ connected s → to ≠ sender →
       received to (step Scaffold.app s (Frame sender size "message" args)).2
       = [("message", [json (default Undefined (head args))])])
  ∧ recipients (step Backend.app s (Frame sender size "message" args)).2 = ∅.
Proof.
  intros Hin Hsize. rewrite scaffold_message by done. cbn [snd].
  rewrite decide_True by done. split; [apply recipients_on_message|]. split.
  - intros to Hto Hne. rewrite received_on_message. by rewrite decide_True.
  - rewrite backend_frame. by case_decide.
Qed.

Lemma message_reaches_all_others_witness :
  recipients (step Scaffold.app three_clients (Frame "A" 64 "message" [hello])).2
  = connected three_clients ∖ {["A"]}
  ∧ (∀ to, to ∈ connected three_clients → to ≠ "A" →
       received to
         (step Scaffold.app three_clients (Frame "A" 64 "message" [hello])).2
       = [("message", [json (default Undefined (head [hello]))])])
  ∧ recipients (step Backend.app three_clients (Frame "A" 64 "message" [hello])).2
    = ∅.
Proof.
  apply (message_reaches_all_others three_clients "A" 64 [hello]).
  - apply three_clients_connected.
  - by vm_compute.
Defined.

(** C2, as stated, fails on the checked-in backend, which the claim cites:
    B is connected and receives nothing of A's frame.  It also fails on the
    scaffolded server for a frame over the size limit. *)
Lemma message_reaches_nobody :
  "B" ∈ connected three_clients
  ∧ received "B"
      (step Backend.app three_clients (Frame "A" 64 "message" [hello])).2 = []
  ∧ recipients
      (step Backend.app three_clients (Frame "A" 64 "message" [hello])).2 = ∅
  ∧ recipients
      (step Scaffold.app three_clients
         (Frame "A" (N.succ maxHttpBufferSize) "message" [too_long])).2 = ∅.
Proof.
  split; [apply three_clients_connected|].
  rewrite backend_frame, scaffold_frame.
  rewrite decide_False by (intros [_ [?|?]]; [done|by apply message_not_reserved]).
  rewrite decide_True by apply three_clients_connected.
  rewrite decide_True by (left; apply over_the_limit). done.
Qed.




(** The two servers on the same events. *)
Example servers_computed :
  (run Scaffold.app init
     [Connect "A"; Connect "B"; Frame "A" 64 "message" [hello];
      Frame "B" 20 "typing" [Null]; Disconnect "A" TransportClose;
      Frame "B" 24 "message" [Str "bye"]]).2
  = [ConsoleLog [Str "⚡ New client connected:"; Str "A"];
     ConsoleLog [Str "⚡ New client connected:"; Str "B"];
     ConsoleLog [Str "→ message received (server routing):"; Str "send"];
     Emit "B" "message" [hello];
     ConsoleLog [Str "❌ Client disconnected:"; Str "A"];
     ConsoleLog [Str "→ message received (server routing):"; Str "unknown"]]
  ∧ (run Backend.app init
       [Connect "A"; Connect "B"; Frame "A" 64 "message" [hello];
        Frame "B" 20 "typing" [Null]; Disconnect "A" TransportClose;
        Frame "B" 24 "message" [Str "bye"]]).2
    = [ConsoleLog [Str "⚡ New client connected:"; Str "A"];
       ConsoleLog [Str "⚡ New client connected:"; Str "B"];
       ConsoleLog [Str "❌ Client disconnected:"; Str "A"]].
Proof. vm_compute. done. Qed.

(** ** The checked-in backend *)

Lemma backend_step_quiet s e : recipients (step Backend.app s e).2 = ∅.
Proof.
  destruct e as [id|id size ev args|id reason].
  - done.
  - rewrite backend_frame. by case_decide.
  - cbn [step]. by case_decide.
Qed.

Lemma backend_step_lines s e :
  Forall connection_line (console (step Backend.app s e).2).
Proof.
  destruct e as [id|id size ev args|id reason].
  - repeat constructor. exists id. by left.
  - rewrite backend_frame. case_decide; [|constructor].
    repeat constructor. exists id. by right.
  - cbn [step]. case_decide; [|constructor].
    repeat constructor. exists id. by right.
Qed.

Lemma run_cons app s e es :
  run app s (e :: es)
  = ((run app (step app s e).1 es).1,
     (step app s e).2 ++ (run app (step app s e).1 es).2).
Proof.
  cbn [run]. destruct (step app s e) as [s1 out1]. cbn [fst snd].
  by destruct (run app s1 es) as [s2 out2].
Qed.

(** C4. The checked-in backend registers no listener for any event a client
    can send: a frame, whatever its event name and arguments, reaches no
    listener; it changes nothing and has no effect at all, unless Socket.IO
    refuses it (too long, or of a reserved name), which closes the sender's
    connection and writes the disconnect line.  Over any run nothing is ever
    emitted to any socket, and every console line is one of the two
    connection lines; a connection writes exactly the first and a disconnect
    of a connected socket exactly the second, each with the socket's
    identifier. *)
Theorem backend_forwards_nothing :
  (∀ s id size ev args,
     step Backend.app s (Frame id size ev args)
     = if decide (id ∈ connected s
                  ∧ ((maxHttpBufferSize < size)%N ∨ ev ∈ reserved))
       then ({| connected := connected s ∖ {[id]} |},
             [ConsoleLog [Str "❌ Client disconnected:"; Str id]])
       else (s, []))
  ∧ (∀ s es, recipients (run Backend.app s es).2 = ∅
             ∧ Forall connection_line (console (run Backend.app s es).2))
  ∧ (∀ s id,
       (step Backend.app s (Connect id)).2
       = [ConsoleLog [Str "⚡ New client connected:"; Str id]])
  ∧ (∀ s id reason,
       (step Backend.app s (Disconnect id reason)).2
       = if decide (id ∈ connected s)
         then [ConsoleLog [Str "❌ Client disconnected:"; Str id]]
         else []).
Proof.
  split; [apply backend_frame|]. split; [|split].
  - intros s es. revert s.
    induction es as [|e es IH]; intros s; [by split; [|constructor]|].
    rewrite run_cons. cbn [snd].
    destruct (IH (step Backend.app s e).1) as [IHr IHc]. split.
    + rewrite recipients_app, backend_step_quiet, IHr. set_solver.
    + rewrite console_app. apply Forall_app. split; [|exact IHc].
      apply backend_step_lines.
  - done.
  - intros s id reason. cbn [step]. by case_decide.
Qed.

(** ** The health route *)



(** The same for a HEAD of [/Health/]. *)
Example health_head_computed :
  Scaffold.http adds_header calls_next
    {| method := HEAD; path := "/Health/"; req_headers := [];
       raw_body := []; body := Undefined |}
  = {| status := 200;
       res_headers := [("X-Powered-By", "Express");
                       ("Access-Control-Allow-Origin", "*");
                       ("Content-Type", "application/json; charset=utf-8")];
       res_body := NoBody |}.
Proof. vm_compute. reflexivity. Qed.


(** ** Disconnects *)

(** Either server emits to connected sockets only. *)
Lemma servers_emit_to_connected app s e :
  app ∈ servers → recipients (step app s e).2 ⊆ connected s.
Proof.
  unfold servers. rewrite !elem_of_cons. intros [->|[->|Hnil]].
  - rewrite backend_step_quiet. set_solver.
  - destruct e as [id|id size ev args|id reason].
    + cbn [step snd Scaffold.app on_connection Scaffold.log_connected recipients].
      set_solver.
    + rewrite scaffold_frame. repeat case_decide; cbn [snd recipients];
        try set_solver.
      rewrite recipients_on_message. set_solver.
    + cbn [step]. case_decide; cbn; set_solver.
  - by apply elem_of_nil in Hnil.
Qed.

(** Only its own connection puts a socket into the table. *)
Lemma step_keeps_away app s e id :
  e ≠ Connect id → id ∉ connected s → id ∉ connected (step app s e).1.
Proof.
  intros Hne Hout. destruct e as [id'|id' size ev args|id' reason]; cbn [step].
  - cbn. assert (id' ≠ id) by congruence. set_solver.
  - repeat case_decide; cbn; set_solver.
  - case_decide; cbn; set_solver.
Qed.

Lemma disconnected_receives_nothing app s es id :
  app ∈ servers → stays_away id es → id ∉ connected s →
  received id (run app s es).2 = [] ∧ id ∉ connected (run app s es).1.
Proof.
  intros Happ Haway. revert s.
  induction Haway as [|e es He Hes IH]; intros s Hout; [done|].
  rewrite run_cons. cbn [fst snd].
  destruct (IH (step app s e).1) as [IHr IHc]; [by apply step_keeps_away|].
  split; [|exact IHc].
  rewrite received_app, IHr, app_nil_r. apply received_nil_iff.
  intros Hin. apply Hout. by apply (servers_emit_to_connected app s e).
Qed.




(** ** Routing and the payload *)

Lemma targets_app (xs ys : list Effect) :
  targets (xs ++ ys) = targets xs ++ targets ys.
Proof.
  induction xs as [|[args|to ev args] xs IH]; cbn [app targets]; [done|done|].
  by rewrite IH.
Qed.

Lemma recipients_targets (xs : list Effect) :
  recipients xs = list_to_set (targets xs).*1.
Proof.
  induction xs as [|[args|to ev args] xs IH]; cbn [recipients targets]; [done|done|].
  rewrite fmap_cons. cbn [list_to_set fst]. by rewrite IH.
Qed.

Lemma targets_on_message sender payload s :
  targets (Scaffold.on_message sender payload s)
  = (λ to, (to, "message")) <$> elements (connected s ∖ {[sender]}).
Proof.
  unfold Scaffold.on_message, broadcast_emit. cbn [targets].
  induction (elements (connected s ∖ {[sender]})) as [|to l IH]; [done|].
  rewrite !fmap_cons. cbn [targets]. by rewrite IH.
Qed.

(** What a frame carries decides neither the next state nor where the
    server emits. *)
Lemma scaffold_step_blind s e e' :
  without_payload e = without_payload e' →
  (step Scaffold.app s e).1 = (step Scaffold.app s e').1
  ∧ targets (step Scaffold.app s e).2 = targets (step Scaffold.app s e').2.
Proof.
  destruct e as [id|id size ev args|id reason],
           e' as [id'|id' size' ev' args'|id' reason'];
    cbn [without_payload]; intros [=]; subst; [done| |done].
  assert (Hsize : (maxHttpBufferSize < size)%N ↔ (maxHttpBufferSize < size')%N).
  { repeat case_decide; try done; lia. }
  rewrite !scaffold_frame.
  destruct (decide (id' ∈ connected s)); [|done].
  destruct (decide ((maxHttpBufferSize < size)%N ∨ ev' ∈ reserved)) as [Hno|Hok].
  - rewrite (decide_True (P := (maxHttpBufferSize < size')%N ∨ ev' ∈ reserved));
      [done|]. destruct Hno; [left; by apply Hsize|by right].
  - rewrite (decide_False (P := (maxHttpBufferSize < size')%N ∨ ev' ∈ reserved));
      [|intros [?|?]; apply Hok; [left; by apply Hsize|by right]].
    cbn [fst snd]. split; [done|].
    destruct (decide (ev' = "message")); [|done].
    by rewrite !targets_on_message.
Qed.

(** C10 (amended). In the scaffolded server what the frames carry plays no
    part in routing, as long as the server accepts them.  Two sequences of
    events that differ only in the arguments of their frames and in the
    length of their messages, each message being within the size limit in
    both or in neither (same sockets, same event names, same order), lead to
    the same connection table and to emissions to the same sockets, under
    the same event names, in the same order; in particular the sets of
    recipients are equal. *)
Theorem recipients_independent_of_payload (s : Server) (es es' : list Event) :
  without_payload <$> es = without_payload <$> es' →
  (run Scaffold.app s es).1 = (run Scaffold.app s es').1
  ∧ targets (run Scaffold.app s es).2 = targets (run Scaffold.app s es').2
  ∧ recipients (run Scaffold.app s es).2 = recipients (run Scaffold.app s es').2.
Proof.
  intros Hsame.
  assert (Hrun : (run Scaffold.app s es).1 = (run Scaffold.app s es').1
                 ∧ targets (run Scaffold.app s es).2
                   = targets (run Scaffold.app s es').2).
  { revert s es' Hsame. induction es as [|e es IH]; intros s es' Hsame.
    - destruct es' as [|e' es']; [done|]. by rewrite fmap_cons in Hsame.
    - destruct es' as [|e' es']; [by rewrite fmap_cons in Hsame|].
      rewrite !fmap_cons in Hsame. injection Hsame as He Hes.
      rewrite !run_cons. cbn [fst snd].
      destruct (scaffold_step_blind s e e' He) as [Hs Ht].
      rewrite !targets_app, Ht, Hs.
      destruct (IH (step Scaffold.app s e').1 es' Hes) as [IHs IHt].
      by rewrite IHs, IHt. }
  destruct Hrun as [Hs Ht]. split; [done|]. split; [done|].
  by rewrite !recipients_targets, Ht.
Qed.

Lemma recipients_independent_of_payload_witness :
  (run Scaffold.app three_clients
     [Frame "A" 64 "message" [hello]; Disconnect "B" PingTimeout;
      Frame "C" 17 "message" [Null]]).1
  = (run Scaffold.app three_clients
       [Frame "A" 30 "message" [Str "x"; Str "y"]; Disconnect "B" PingTimeout;
        Frame "C" 13 "message" []]).1
  ∧ targets (run Scaffold.app three_clients
       [Frame "A" 64 "message" [hello]; Disconnect "B" PingTimeout;
        Frame "C" 17 "message" [Null]]).2
    = targets (run Scaffold.app three_clients
         [Frame "A" 30 "message" [Str "x"; Str "y"]; Disconnect "B" PingTimeout;
          Frame "C" 13 "message" []]).2
  ∧ recipients (run Scaffold.app three_clients
       [Frame "A" 64 "message" [hello]; Disconnect "B" PingTimeout;
        Frame "C" 17 "message" [Null]]).2
    = recipients (run Scaffold.app three_clients
         [Frame "A" 30 "message" [Str "x"; Str "y"]; Disconnect "B" PingTimeout;
          Frame "C" 13 "message" []]).2.
Proof.
  apply (recipients_independent_of_payload three_clients). reflexivity.
Defined.

(** C10, as stated, fails: the length of a payload decides whether the
    frame has recipients.  For a short payload B is one; a payload over the
    size limit, from the same sender in the same state, reaches nobody. *)
Lemma recipients_depend_on_length :
  "B" ∈ recipients
          (step Scaffold.app three_clients (Frame "A" 16 "message" [Str "x"])).2
  ∧ recipients
      (step Scaffold.app three_clients
         (Frame "A" (N.succ maxHttpBufferSize) "message" [too_long])).2 = ∅.
Proof.
  rewrite scaffold_message by (by vm_compute). rewrite scaffold_frame.
  rewrite !decide_True by first [apply three_clients_connected
                                | left; apply over_the_limit].
  cbn [snd]. rewrite recipients_on_message. split; [|done].
  unfold three_clients. cbn [connected]. set_solver.
Qed.

(** ** What the servers do not do *)

Lemma run_snoc app s es e :
  run app s (es ++ [e])
  = ((step app (run app s es).1 e).1,
     (run app s es).2 ++ (step app (run app s es).1 e).2).
Proof.
  revert s. induction es as [|e0 es IH]; intros s.
  - rewrite app_nil_l, run_cons. cbn [run fst snd]. by rewrite app_nil_r.
  - rewrite <- app_comm_cons, !run_cons, IH. cbn [fst snd]. by rewrite app_assoc.
Qed.

(** Neither server keeps anything for a socket that is away: whatever
    happens while it is not connected, it has received nothing by the time it
    connects, and its connection brings it nothing. *)
Theorem nothing_kept_for_the_absent (app : App) (s : Server) (es : list Event)
    (id : SocketId) :
  app ∈ servers → id ∉ connected s → stays_away id es →
  received id (run app s (es ++ [Connect id])).2 = [].
Proof.
  intros Happ Hout Haway. rewrite run_snoc. cbn [snd]. rewrite received_app.
  destruct (disconnected_receives_nothing app s es id Happ Haway Hout) as [-> _].
  revert Happ. unfold servers. rewrite !elem_of_cons.
  intros [->|[->|Hnil]]; [done|done|by apply elem_of_nil in Hnil].
Qed.

Lemma nothing_kept_for_the_absent_witness :
  received "D"
    (run Scaffold.app three_clients
       ([Frame "A" 64 "message" [hello]; Frame "B" 64 "message" [hello]]
          ++ [Connect "D"])).2 = [].
Proof.
  apply (nothing_kept_for_the_absent Scaffold.app three_clients
           [Frame "A" 64 "message" [hello]; Frame "B" 64 "message" [hello]] "D").
  - unfold servers. apply elem_of_cons. right. apply list_elem_of_here.
  - unfold three_clients. cbn [connected]. set_solver.
  - repeat constructor; discriminate.
Defined.

(** The checked-in backend has no route: a request that its two
    middlewares hand on gets Express's 404, the health path included. *)
Theorem backend_has_no_route (cors json : Middleware)
    (req req1 req2 : Request) (res1 res2 : Response) :
  cors req fresh_response = Next req1 res1 →
  json req1 res1 = Next req2 res2 →
  Backend.http cors json req = not_found req2 res2
  ∧ status (Backend.http cors json req) = 404.
Proof.
  intros Hcors Hjson. unfold Backend.http, handle, Backend.stack. cbn [walk].
  rewrite Hcors, Hjson. split; [done|].
  unfold not_found, sent. by destruct (method_eqb (method req2) HEAD).
Qed.

Lemma backend_has_no_route_witness :
  Backend.http adds_header calls_next get_health
  = not_found get_health
      {| status := 200;
         res_headers := [("X-Powered-By", "Express");
                         ("Access-Control-Allow-Origin", "*")];
         res_body := NoBody |}
  ∧ status (Backend.http adds_header calls_next get_health) = 404.
Proof.
  exact (backend_has_no_route adds_header calls_next get_health get_health
           get_health _ _ eq_refl eq_refl).
Defined.

End Servers.

(** * Properties of the relay of the specification *)

Section RelayProperties.
Import Relay.

(** ** Settling an envelope *)

Lemma held_iff st id : held st id ↔ ∃ r, id ∈ (queue st r).*1.
Proof.
  unfold held, queue. split.
  - intros (r & q & Hq & Hin). exists r. by rewrite Hq.
  - intros (r & Hin). destruct (pending st !! r) as [q|] eqn:Hq.
    + by exists r, q.
    + by apply elem_of_nil in Hin.
Qed.

(** What [settle] changes: the state of its envelope, and only from
    pending, when no queue holds the envelope. *)
Lemma settle_spec to st id :
  sessions (settle to st id) = sessions st
  ∧ rooms (settle to st id) = rooms st
  ∧ pending (settle to st id) = pending st
  ∧ sent (settle to st id) = sent st
  ∧ ∀ id', ledger (settle to st id) !! id' = ledger st !! id'
           ∨ (id' = id ∧ ledger st !! id' = Some Pending ∧ ¬ held st id'
              ∧ ledger (settle to st id) !! id' = Some to).
Proof.
  unfold settle. case_decide as Hc; cbn; repeat split; try done; [|by left].
  intros id'. destruct (decide (id' = id)) as [->|Hne].
  - right. destruct Hc as [HP Hh]. by rewrite lookup_insert_eq.
  - left. by rewrite lookup_insert_ne.
Qed.

Lemma settle_all_spec to (cs : list Copy) st :
  sessions (settle_all to cs st) = sessions st
  ∧ rooms (settle_all to cs st) = rooms st
  ∧ pending (settle_all to cs st) = pending st
  ∧ sent (settle_all to cs st) = sent st
  ∧ ∀ id, ledger (settle_all to cs st) !! id = ledger st !! id
          ∨ (id ∈ cs.*1 ∧ ledger st !! id = Some Pending ∧ ¬ held st id
             ∧ ledger (settle_all to cs st) !! id = Some to).
Proof.
  unfold settle_all. revert st. induction cs.*1 as [|id0 ids IH]; intros st.
  - cbn. repeat split; try done. by left.
  - cbn [foldl]. destruct (settle_spec to st id0) as (Hs & Hr & Hp & Hn & Hl).
    destruct (IH (settle to st id0)) as (Hs' & Hr' & Hp' & Hn' & Hl').
    rewrite Hs', Hr', Hp', Hn'. repeat split; try done.
    intros id. destruct (Hl' id) as [Heq|(Hin & HP & Hh & Hto)].
    + rewrite Heq. destruct (Hl id) as [Heq'|(-> & HP & Hh & Hto)]; [by left|].
      right. split; [apply list_elem_of_here|done].
    + right. split; [apply elem_of_cons; by right|].
      assert (Hheld : held (settle to st id0) id ↔ held st id)
        by (unfold held; by rewrite Hp).
      destruct (Hl id) as [Heq'|(-> & HP' & Hh' & Hto')].
      * rewrite <- Heq'. by rewrite <- Hheld.
      * rewrite Hto' in HP. split; [done|]. split; [by rewrite <- Hheld|].
        by rewrite Hto.
Qed.

Lemma queue_settle_all to cs st r : queue (settle_all to cs st) r = queue st r.
Proof.
  unfold queue. by destruct (settle_all_spec to cs st) as (_ & _ & -> & _).
Qed.

(** ** The session registry *)

Lemma without_member_twice sid room :
  without_member sid (without_member sid room) = without_member sid room.
Proof.
  unfold without_member. cbn. f_equal. set_solver.
Qed.

Lemma queue_destroy sid st : queue (destroy sid st) sid = [].
Proof.
  unfold destroy. rewrite queue_settle_all. unfold queue. cbn.
  by rewrite lookup_delete_eq.
Qed.

Lemma destroy_fields sid st :
  sessions (destroy sid st) = delete sid (sessions st)
  ∧ rooms (destroy sid st) = without_member sid <$> rooms st
  ∧ pending (destroy sid st) = delete sid (pending st)
  ∧ sent (destroy sid st) = sent st.
Proof.
  unfold destroy.
  by destruct (settle_all_spec Expired (queue st sid)
                 {| sessions := delete sid (sessions st);
                    rooms := without_member sid <$> rooms st;
                    pending := delete sid (pending st);
                    ledger := ledger st; sent := sent st |})
    as (-> & -> & -> & -> & _).
Qed.

Lemma rooms_of_empty_iff sid st :
  rooms_of sid st = ∅ ↔ ∀ rid room, rooms st !! rid = Some room → sid ∉ members room.
Proof.
  unfold rooms_of. rewrite dom_empty_iff_L, map_empty_filter. done.
Qed.

(** C9. [destroy] removes the session, so that [lookup] answers [NotFound],
    removes it from the members of every room and drops its pending queue;
    it cannot fail (it returns a state, never an error), and destroying a
    destroyed session changes nothing: a second disconnect of the session
    leaves the state as it is and pushes nothing. *)
Theorem destroy_removes_and_is_idempotent (cfg : Config) (sid : string)
    (st : State) :
  lookup sid (destroy sid st) = inl NotFound
  ∧ rooms_of sid (destroy sid st) = ∅
  ∧ (∀ rid, sid ∉ room_members rid (destroy sid st))
  ∧ queue (destroy sid st) sid = []
  ∧ destroy sid (destroy sid st) = destroy sid st
  ∧ step cfg (step cfg st (Disconnect sid)).1 (Disconnect sid)
    = ((step cfg st (Disconnect sid)).1, []).
Proof.
  assert (Htwice : destroy sid (destroy sid st) = destroy sid st).
  { unfold destroy at 1. rewrite queue_destroy. unfold settle_all. cbn [fmap list_fmap foldl].
    destruct (destroy_fields sid st) as (Hs & Hr & Hp & Hn).
    destruct (destroy sid st) as [ss rs ps ls n]. cbn in *. subst. f_equal.
    - apply delete_delete_eq.
    - rewrite <- map_fmap_compose. apply map_fmap_ext.
      intros rid room _. apply without_member_twice.
    - apply delete_delete_eq. }
  assert (Hrooms : ∀ rid room,
            rooms (destroy sid st) !! rid = Some room → sid ∉ members room).
  { intros rid room. destruct (destroy_fields sid st) as (_ & -> & _).
    rewrite lookup_fmap.
    destruct (rooms st !! rid) as [room0|]; [|done].
    cbn. intros [= <-]. cbn. set_solver. }
  split; [|split; [|split; [|split; [|split]]]].
  - unfold lookup. destruct (destroy_fields sid st) as (-> & _).
    by rewrite lookup_delete_eq.
  - by apply rooms_of_empty_iff.
  - intros rid. unfold room_members.
    destruct (rooms (destroy sid st) !! rid) as [room|] eqn:Hr; [|set_solver].
    by apply (Hrooms rid).
  - apply queue_destroy.
  - exact Htwice.
  - cbn [step fst]. by rewrite Htwice.
Qed.

(** On the sample state: B is registered and a member of R before, and
    neither after. *)
Example destroy_computed :
  lookup "B" sample_state = inr (sample_session false)
  ∧ rooms_of "B" sample_state = {["R"]}
  ∧ lookup "B" (destroy "B" sample_state) = inl NotFound
  ∧ room_members "R" (destroy "B" sample_state) = {["A"]}.
Proof. vm_compute. done. Qed.

(** ** The ledger and the pushes *)

Lemma pushes_app k xs ys : pushes k (xs ++ ys) = pushes k xs + pushes k ys.
Proof. unfold pushes. by rewrite filter_app, length_app. Qed.

Lemma pushes_push_each id r' r (cs : list Copy) :
  NoDup cs.*1 →
  pushes (id, r') (push r <$> cs) = if decide (r' = r ∧ id ∈ cs.*1) then 1 else 0.
Proof.
  unfold pushes. induction cs as [|c cs IH]; intros Hnd.
  - rewrite decide_False; [done|]. intros [_ Hin]. by apply elem_of_nil in Hin.
  - rewrite fmap_cons in Hnd. apply NoDup_cons in Hnd as [Hc Hnd].
    rewrite !fmap_cons, filter_cons. cbn [push push_id push_to].
    destruct (decide ((c.1, r) = (id, r'))) as [Heq|Hne].
    + injection Heq as <- <-. cbn [length]. rewrite IH by done.
      rewrite (decide_False (P := r = r ∧ c.1 ∈ cs.*1)) by (by intros [_ ?]).
      rewrite decide_True; [done|]. split; [done|]. apply list_elem_of_here.
    + rewrite IH by done.
      destruct (decide (r' = r ∧ id ∈ cs.*1)) as [[-> Hin]|Hn].
      * rewrite decide_True; [done|]. split; [done|]. apply elem_of_cons. by right.
      * rewrite decide_False; [done|]. intros [-> Hin].
        apply elem_of_cons in Hin as [->|Hin]; [by apply Hne|]. by apply Hn.
Qed.

Lemma advances_refl o : advances o o.
Proof. destruct o as [[]|]; cbn; eauto. Qed.

Lemma advances_trans o1 o2 o3 : advances o1 o2 → advances o2 o3 → advances o1 o3.
Proof.
  destruct o1 as [[]|]; cbn; [|by intros ->|by intros ->|done].
  intros [s ->]. destruct s; cbn; [done|by intros ->|by intros ->].
Qed.

(** The invariants read the queues, the ledger and the counter only. *)
Lemma wf_same cfg st st' :
  pending st' = pending st → ledger st' = ledger st → sent st' = sent st →
  wf cfg st → wf cfg st'.
Proof.
  intros Hp Hl Hs [Hrec Hdis Hnum Hbnd].
  assert (Hq : ∀ r, queue st' r = queue st r) by (intros r; unfold queue; by rewrite Hp).
  split.
  - intros r c. rewrite Hq, Hl. apply Hrec.
  - intros r. rewrite Hq. apply Hdis.
  - intros id. rewrite Hl, Hs. apply Hnum.
  - intros r. rewrite Hq. apply Hbnd.
Qed.

Lemma preserving_same cfg f :
  (∀ st, pending (f st) = pending st ∧ ledger (f st) = ledger st
         ∧ sent (f st) = sent st) →
  preserving cfg f.
Proof.
  intros Hsame st out Hwf Hout. destruct (Hsame st) as (Hp & Hl & Hs).
  split; [by apply (wf_same cfg st)|]. split.
  - intros id r. unfold queue. rewrite Hp, Hs. apply Hout.
  - intros id. rewrite Hl. apply advances_refl.
Qed.

(** Settling keeps the invariants. *)
Lemma settle_all_preserving cfg to cs : preserving cfg (settle_all to cs).
Proof.
  intros st out [Hrec Hdis Hnum Hbnd] Hout.
  destruct (settle_all_spec to cs st) as (Hs & Hr & Hp & Hn & Hl).
  assert (Hq : ∀ r, queue (settle_all to cs st) r = queue st r)
    by (intros r; apply queue_settle_all).
  split; [split|split].
  - intros r c Hc. rewrite Hq in Hc.
    destruct (Hl c.1) as [->|(_ & _ & Hh & _)]; [by apply (Hrec r)|].
    destruct Hh. apply held_iff. exists r. apply list_elem_of_fmap. by exists c.
  - intros r. rewrite Hq. apply Hdis.
  - intros id. rewrite Hn. destruct (Hl id) as [->|(_ & HP & _ & _)];
      [apply Hnum|]. intros _. apply Hnum. by rewrite HP.
  - intros r. rewrite Hq. apply Hbnd.
  - intros id r. rewrite Hn, Hq. apply Hout.
  - intros id. destruct (Hl id) as [->|(_ & -> & _ & ->)];
      [apply advances_refl|]. cbn. eauto.
Qed.

Lemma preserving_compose cfg f g :
  preserving cfg f → preserving cfg g → preserving cfg (λ st, g (f st)).
Proof.
  intros Hf Hg st out Hwf Hout.
  destruct (Hf st out Hwf Hout) as (Hwf1 & Hout1 & Hadv1).
  destruct (Hg (f st) out Hwf1 Hout1) as (Hwf2 & Hout2 & Hadv2).
  split; [done|]. split; [done|].
  intros id. eapply advances_trans; [apply Hadv1|apply Hadv2].
Qed.

(** ** One recipient of a [send] *)

Lemma queue_insert r r' kept st rooms' sessions' ledger' sent' :
  queue {| sessions := sessions'; rooms := rooms';
           pending := <[r := kept]> (pending st);
           ledger := ledger'; sent := sent' |} r'
  = if decide (r' = r) then kept else queue st r'.
Proof.
  unfold queue. cbn. case_decide as Hr.
  - subst. by rewrite lookup_insert_eq.
  - by rewrite lookup_insert_ne.
Qed.

(** The queue of [r] is replaced by [kept], a list of copies that were in it
    or are of pending envelopes, pairwise distinct and within the capacity:
    the invariants carry over, as long as nothing that is kept was pushed to
    [r]. *)
Lemma requeued_ok cfg r (kept : list Copy) st out :
  wf cfg st → pushed_once st out →
  (∀ c, c ∈ kept → ledger st !! c.1 = Some Pending) →
  (∀ c, c ∈ kept → pushes (c.1, r) out = 0) →
  NoDup kept.*1 → length kept ≤ capacity cfg →
  wf cfg {| sessions := sessions st; rooms := rooms st;
            pending := <[r := kept]> (pending st);
            ledger := ledger st; sent := sent st |}
  ∧ pushed_once {| sessions := sessions st; rooms := rooms st;
                   pending := <[r := kept]> (pending st);
                   ledger := ledger st; sent := sent st |} out.
Proof.
  intros [Hrec Hdis Hnum Hbnd] Hout Hpend Hnew Hnd Hlen. split; [split|].
  - intros r' c. rewrite queue_insert. cbn [ledger].
    case_decide; [apply Hpend|apply Hrec].
  - intros r'. rewrite queue_insert. case_decide; [done|apply Hdis].
  - exact Hnum.
  - intros r'. rewrite queue_insert. case_decide; [done|apply Hbnd].
  - intros id r'. rewrite queue_insert. cbn [sent].
    destruct (Hout id r') as [Hle Hpushed]. split; [done|].
    intros Hpos. destruct (Hpushed Hpos) as [Hlt Hnot]. split; [done|].
    case_decide as Hr; [|done]. subst r'.
    intros Hin. apply list_elem_of_fmap in Hin as (c & -> & Hc).
    specialize (Hnew c Hc). lia.
Qed.

Lemma most_recent_length {A} n (l : list A) : length (most_recent n l) ≤ n.
Proof. unfold most_recent. rewrite length_drop. lia. Qed.

Lemma most_recent_sublist {A} n (l : list A) : most_recent n l `sublist_of` l.
Proof. unfold most_recent. apply sublist_drop. Qed.

Lemma settle_all_other to cs st id :
  id ∉ cs.*1 → ledger (settle_all to cs st) !! id = ledger st !! id.
Proof.
  intros Hnot. destruct (settle_all_spec to cs st) as (_ & _ & _ & _ & Hl).
  by destruct (Hl id) as [?|[? _]].
Qed.

Lemma hold_unfold cap r (c : Copy) st out :
  hold cap r c (st, out)
  = (settle_all Expired
       (filter (λ d, d.1 ≠ c.1)
          (take (length (queue st r ++ [c]) - cap) (queue st r ++ [c])))
       {| sessions := sessions st; rooms := rooms st;
          pending := <[r := most_recent cap (queue st r ++ [c])]> (pending st);
          ledger := ledger st; sent := sent st |},
     out).
Proof.
  unfold hold, resettle. cbn [fst snd fmap list_fmap]. by rewrite app_nil_r.
Qed.

Lemma hold_ok cfg r (c : Copy) st out prev :
  wf cfg st → pushed_once st (prev ++ out) →
  ledger st !! c.1 = Some Pending →
  c.1 ∉ (queue st r).*1 → pushes (c.1, r) (prev ++ out) = 0 →
  wf cfg (hold (capacity cfg) r c (st, out)).1
  ∧ pushed_once (hold (capacity cfg) r c (st, out)).1
      (prev ++ (hold (capacity cfg) r c (st, out)).2)
  ∧ (∀ id, advances (ledger st !! id)
             (ledger (hold (capacity cfg) r c (st, out)).1 !! id))
  ∧ ledger (hold (capacity cfg) r c (st, out)).1 !! c.1 = Some Pending
  ∧ sent (hold (capacity cfg) r c (st, out)).1 = sent st
  ∧ (hold (capacity cfg) r c (st, out)).2 = out
  ∧ (∀ r', r' ≠ r →
       queue (hold (capacity cfg) r c (st, out)).1 r' = queue st r').
Proof.
  intros Hwf Hout Hpend Hfresh Hnone.
  rewrite hold_unfold. cbn [fst snd].
  set (q := queue st r ++ [c]).
  set (st1 := {| sessions := sessions st; rooms := rooms st;
                 pending := <[r := most_recent (capacity cfg) q]> (pending st);
                 ledger := ledger st; sent := sent st |}).
  assert (Hq : ∀ c', c' ∈ q → c' ∈ queue st r ∨ c' = c).
  { intros c' Hc'. apply elem_of_app in Hc' as [?|Hc']; [by left|].
    right. by apply list_elem_of_singleton in Hc'. }
  assert (Hkept : ∀ c', c' ∈ most_recent (capacity cfg) q → c' ∈ q).
  { intros c' Hc'. eapply elem_of_sublist; [exact Hc'|apply most_recent_sublist]. }
  destruct (requeued_ok cfg r (most_recent (capacity cfg) q) st (prev ++ out))
    as [Hwf1 Hout1]; [done|done| | | |apply most_recent_length|].
  { intros c' Hc'. destruct (Hq c' (Hkept c' Hc')) as [Hin| ->]; [|done].
    by apply (wf_recorded _ _ Hwf r). }
  { intros c' Hc'. destruct (Hq c' (Hkept c' Hc')) as [Hin| ->]; [|done].
    destruct (Hout c'.1 r) as [_ Hpushed].
    destruct (pushes (c'.1, r) (prev ++ out)) as [|n] eqn:Hn; [done|].
    destruct Hpushed as [_ Hnot]; [lia|]. destruct Hnot.
    apply list_elem_of_fmap. by exists c'. }
  { apply (sublist_NoDup _ q.*1); [|apply fmap_sublist, most_recent_sublist].
    unfold q. rewrite fmap_app. apply NoDup_app. split; [|split].
    - apply (wf_distinct _ _ Hwf).
    - intros id Hin Hc. apply list_elem_of_singleton in Hc. by subst.
    - apply NoDup_singleton. }
  fold st1 in Hwf1, Hout1.
  destruct (settle_all_preserving cfg Expired
              (filter (λ d, d.1 ≠ c.1) (take (length q - capacity cfg) q))
              st1 (prev ++ out) Hwf1 Hout1) as (Hwf2 & Hout2 & Hadv2).
  split; [done|]. split; [done|]. split; [exact Hadv2|]. split.
  - rewrite settle_all_other; [done|].
    intros Hin. apply list_elem_of_fmap in Hin as (d & Hd & Hin).
    apply list_elem_of_filter in Hin as [Hne _]. by apply Hne.
  - destruct (settle_all_spec Expired
                (filter (λ d, d.1 ≠ c.1) (take (length q - capacity cfg) q)) st1)
      as (_ & _ & _ & Hn & _).
    split; [exact Hn|]. split; [done|]. intros r' Hr'.
    rewrite queue_settle_all. unfold st1. rewrite queue_insert.
    by rewrite decide_False.
Qed.

Lemma pushes_one (c : Copy) r k :
  pushes k [push r c] = if decide (k = (c.1, r)) then 1 else 0.
Proof.
  unfold pushes. rewrite filter_cons, filter_nil. cbn [push push_id push_to].
  destruct (decide ((c.1, r) = k)) as [<-|Hne].
  - by rewrite decide_True.
  - rewrite decide_False; [done|]. by intros ->.
Qed.

Lemma deliver_ok cfg rejected r (c : Copy) st out prev :
  wf cfg st → pushed_once st (prev ++ out) →
  ledger st !! c.1 = Some Pending → c.1 < sent st →
  c.1 ∉ (queue st r).*1 → pushes (c.1, r) (prev ++ out) = 0 →
  wf cfg (deliver (capacity cfg) rejected c (st, out) r).1
  ∧ pushed_once (deliver (capacity cfg) rejected c (st, out) r).1
      (prev ++ (deliver (capacity cfg) rejected c (st, out) r).2)
  ∧ (∀ id, advances (ledger st !! id)
             (ledger (deliver (capacity cfg) rejected c (st, out) r).1 !! id))
  ∧ ledger (deliver (capacity cfg) rejected c (st, out) r).1 !! c.1 = Some Pending
  ∧ sent (deliver (capacity cfg) rejected c (st, out) r).1 = sent st
  ∧ ((deliver (capacity cfg) rejected c (st, out) r).2 = out
     ∨ (deliver (capacity cfg) rejected c (st, out) r).2 = out ++ [push r c])
  ∧ (∀ r', r' ≠ r →
       queue (deliver (capacity cfg) rejected c (st, out) r).1 r' = queue st r').
Proof.
  intros Hwf Hout Hpend Hlt Hfresh Hnone. unfold deliver. cbn [fst snd].
  destruct (online st r && bool_decide (r ∉ rejected)).
  - cbn [fst snd]. split; [done|]. split.
    + intros id r'. rewrite app_assoc, pushes_app, pushes_one.
      destruct (Hout id r') as [Hle Hpushed].
      case_decide as Hk.
      * injection Hk as -> ->. rewrite Hnone. split; [lia|]. by intros _.
      * split; [lia|]. intros Hpos. apply Hpushed. lia.
    + split; [intros id; apply advances_refl|]. split; [done|].
      split; [done|]. split; [by right|done].
  - destruct (hold_ok cfg r c st out prev)
      as (H1 & H2 & H3 & H4 & H5 & H6 & H7); [done..|].
    split; [done|]. split; [done|]. split; [done|]. split; [done|].
    split; [done|]. split; [by left|done].
Qed.

Lemma deliver_all_ok cfg rejected (c : Copy) rs st out prev :
  NoDup rs → wf cfg st → pushed_once st (prev ++ out) →
  ledger st !! c.1 = Some Pending → c.1 < sent st →
  (∀ r, r ∈ rs → (c.1 ∉ (queue st r).*1) ∧ pushes (c.1, r) (prev ++ out) = 0) →
  wf cfg (foldl (deliver (capacity cfg) rejected c) (st, out) rs).1
  ∧ pushed_once (foldl (deliver (capacity cfg) rejected c) (st, out) rs).1
      (prev ++ (foldl (deliver (capacity cfg) rejected c) (st, out) rs).2)
  ∧ (∀ id, advances (ledger st !! id)
             (ledger (foldl (deliver (capacity cfg) rejected c) (st, out) rs).1 !! id))
  ∧ ledger (foldl (deliver (capacity cfg) rejected c) (st, out) rs).1 !! c.1
    = Some Pending
  ∧ sent (foldl (deliver (capacity cfg) rejected c) (st, out) rs).1 = sent st
  ∧ ∃ more, (foldl (deliver (capacity cfg) rejected c) (st, out) rs).2 = out ++ more
            ∧ Forall (λ p, push_id p = c.1) more.
Proof.
  intros Hnd. revert st out.
  induction Hnd as [|r rs Hr Hnd IH]; intros st out Hwf Hout Hpend Hlt Hfresh.
  - cbn. split; [done|]. split; [done|].
    split; [intros id; apply advances_refl|]. split; [done|]. split; [done|].
    exists []. by rewrite app_nil_r.
  - cbn [foldl].
    destruct (Hfresh r) as [Hq Hp]; [apply list_elem_of_here|].
    destruct (deliver_ok cfg rejected r c st out prev)
      as (Hwf1 & Hout1 & Hadv1 & Hpend1 & Hsent1 & Hgrow & Hother); [done..|].
    destruct (deliver (capacity cfg) rejected c (st, out) r) as [st1 out1].
    cbn [fst snd] in *.
    destruct (IH st1 out1) as (Hwf2 & Hout2 & Hadv2 & Hpend2 & Hsent2 & more & Hmore & Hall);
      [done|done|done|lia| |].
    { intros r' Hr'. assert (r' ≠ r) by (intros ->; by apply Hr).
      destruct (Hfresh r') as [Hq' Hp']; [apply elem_of_cons; by right|].
      rewrite Hother by done. split; [done|].
      destruct Hgrow as [->| ->]; [done|].
      rewrite app_assoc, pushes_app, pushes_one, Hp'.
      rewrite decide_False; [done|]. by intros [= ?]. }
    split; [done|]. split; [done|].
    split; [intros id; eapply advances_trans; [apply Hadv1|apply Hadv2]|].
    split; [done|]. split; [lia|].
    destruct Hgrow as [->| ->].
    + by exists more.
    + exists (push r c :: more). rewrite Hmore, <- app_assoc. split; [done|].
      by constructor.
Qed.

(** ** The end of a [send] *)

Lemma settle_preserving cfg to id : preserving cfg (λ st, settle to st id).
Proof.
  exact (settle_all_preserving cfg to [(id, sample_envelope Byte.x00)]).
Qed.

Lemma send_ok cfg rejected env st st' out prev :
  wf cfg st → pushed_once st prev →
  send cfg rejected env st = inr (st', out) →
  wf cfg st' ∧ pushed_once st' (prev ++ out)
  ∧ (∀ id, advances (ledger st !! id) (ledger st' !! id))
  ∧ Forall (λ p, push_id p = sent st) out.
Proof.
  intros Hwf Hout. unfold send.
  destruct (sender env) as [from|]; [|done].
  destruct (recipient env) as [t|]; [|done].
  destruct (live st from); [|done].
  destruct (resolve st from t) as [err|rs]; [done|].
  unfold conclude. intros [= <- <-].
  assert (Hnew : ledger st !! sent st = None).
  { destruct (ledger st !! sent st) eqn:Hl; [|done].
    assert (sent st < sent st); [|lia].
    apply (wf_numbered _ _ Hwf). rewrite Hl. eauto. }
  assert (Hfree : ∀ r, sent st ∉ (queue st r).*1).
  { intros r Hin. apply list_elem_of_fmap in Hin as (c & Hc & Hin).
    apply (wf_recorded _ _ Hwf) in Hin. rewrite <- Hc in Hin. congruence. }
  assert (Hnone : ∀ r, pushes (sent st, r) prev = 0).
  { intros r. destruct (Hout (sent st) r) as [_ Hp].
    destruct (pushes (sent st, r) prev); [done|]. destruct Hp; lia. }
  destruct (deliver_all_ok cfg rejected (sent st, env) (elements rs)
              (next_envelope st) [] prev)
    as (Hwf1 & Hout1 & Hadv1 & Hpend1 & Hsent1 & more & Hmore & Hall).
  - apply NoDup_elements.
  - destruct Hwf as [Hrec Hdis Hnum Hbnd]. split; [|done| |done].
    + intros r c Hc. cbn. rewrite lookup_insert_ne; [by apply (Hrec r)|].
      intros Heq. apply (Hfree r). apply list_elem_of_fmap. by exists c.
    + intros id. cbn. destruct (decide (id = sent st)) as [->|Hne]; [lia|].
      rewrite lookup_insert_ne by done. intros Hs. specialize (Hnum id Hs). lia.
  - rewrite app_nil_r. intros id r. destruct (Hout id r) as [Hle Hp].
    split; [done|]. intros Hpos. destruct (Hp Hpos). split; [cbn; lia|done].
  - cbn. by rewrite lookup_insert_eq.
  - cbn. lia.
  - intros r _. rewrite app_nil_r. split; [apply Hfree|apply Hnone].
  - destruct (settle_preserving cfg
                (if bool_decide
                      ((foldl (deliver (capacity cfg) rejected (sent st, env))
                          (next_envelope st, []) (elements rs)).2 = [])
                 then Expired else Delivered)
                (sent st) _ _ Hwf1 Hout1) as (Hwf2 & Hout2 & Hadv2).
    split; [done|]. split; [done|]. split.
    + intros id. eapply advances_trans; [|apply Hadv2].
      eapply advances_trans; [|apply Hadv1].
      cbn. destruct (decide (id = sent st)) as [->|Hne].
      * by rewrite Hnew.
      * rewrite lookup_insert_ne by done. apply advances_refl.
    + by rewrite Hmore.
Qed.

(** ** Reconnects, destruction and the sweep *)

Lemma preserving_foldl {A} cfg (f : State → A → State) (l : list A) :
  (∀ a, preserving cfg (λ st, f st a)) → preserving cfg (λ st, foldl f st l).
Proof.
  intros Hf. induction l as [|a l IH] using rev_ind; intros st out Hwf Hout.
  - cbn. split; [done|]. split; [done|]. intros k. apply advances_refl.
  - rewrite foldl_snoc.
    destruct (IH st out Hwf Hout) as (Hwf1 & Hout1 & Hadv1).
    destruct (Hf a _ out Hwf1 Hout1) as (Hwf2 & Hout2 & Hadv2).
    split; [done|]. split; [done|].
    intros k. eapply advances_trans; [apply Hadv1|apply Hadv2].
Qed.

(** Taking copies out of the queues keeps the invariants. *)
Lemma shrunk_ok cfg st st1 out :
  wf cfg st → pushed_once st out →
  (∀ r, queue st1 r `sublist_of` queue st r) →
  ledger st1 = ledger st → sent st1 = sent st →
  wf cfg st1 ∧ pushed_once st1 out.
Proof.
  intros [Hrec Hdis Hnum Hbnd] Hout Hsub Hl Hs. split; [split|].
  - intros r c Hc. rewrite Hl. apply (Hrec r).
    by eapply elem_of_sublist.
  - intros r. eapply sublist_NoDup; [apply (Hdis r)|]. by apply fmap_sublist.
  - intros id. rewrite Hl, Hs. apply Hnum.
  - intros r. specialize (Hbnd r). specialize (Hsub r).
    apply sublist_length in Hsub. lia.
  - intros id r. rewrite Hs. destruct (Hout id r) as [Hle Hp].
    split; [done|]. intros Hpos. destruct (Hp Hpos) as [Hlt Hnot].
    split; [done|]. intros Hin. apply Hnot.
    eapply elem_of_sublist; [exact Hin|]. by apply fmap_sublist.
Qed.

(** Pushing to [r] copies that were in its queue and are no longer. *)
Lemma pushed_from_queue cfg r (dl : list Copy) st st1 prev :
  wf cfg st → pushed_once st prev → pushed_once st1 prev →
  sent st1 = sent st →
  dl `sublist_of` queue st r →
  (∀ id, id ∈ dl.*1 → id ∉ (queue st1 r).*1) →
  pushed_once st1 (prev ++ (push r <$> dl)).
Proof.
  intros Hwf Hout Hout1 Hs Hsub Hgone id r'.
  assert (Hnd : NoDup dl.*1).
  { eapply sublist_NoDup; [apply (wf_distinct _ _ Hwf r)|].
    by apply fmap_sublist. }
  rewrite pushes_app, pushes_push_each by done.
  destruct (Hout1 id r') as [Hle Hp]. case_decide as Hc.
  - destruct Hc as [-> Hin].
    assert (Hq : id ∈ (queue st r).*1)
      by (eapply elem_of_sublist; [exact Hin|by apply fmap_sublist]).
    assert (Hzero : pushes (id, r) prev = 0).
    { destruct (Hout id r) as [_ Hp0].
      destruct (pushes (id, r) prev); [done|]. by destruct Hp0; [lia|]. }
    rewrite Hzero. split; [lia|]. intros _. split; [|by apply Hgone].
    rewrite Hs. apply list_elem_of_fmap in Hq as (c & -> & Hc).
    apply (wf_numbered _ _ Hwf). rewrite (wf_recorded _ _ Hwf r c Hc). eauto.
  - rewrite Nat.add_0_r. done.
Qed.

Lemma sublist_filter {A} (P : A → Prop) `{!∀ x, Decision (P x)} (l : list A) :
  filter P l `sublist_of` l.
Proof.
  induction l as [|x l IH]; [done|]. rewrite filter_cons.
  case_decide; [by apply sublist_skip|by apply sublist_cons].
Qed.

Lemma reconnect_ok cfg now r st prev :
  wf cfg st → pushed_once st prev →
  wf cfg (reconnect now r st).1
  ∧ pushed_once (reconnect now r st).1 (prev ++ (reconnect now r st).2)
  ∧ (∀ id, advances (ledger st !! id) (ledger (reconnect now r st).1 !! id))
  ∧ Forall (λ p, ledger st !! push_id p = Some Pending) (reconnect now r st).2.
Proof.
  intros Hwf Hout. unfold reconnect.
  destruct (sessions st !! r) as [s|]; [|by cbn; rewrite app_nil_r;
    split; [|split; [|split; [intros id; apply advances_refl|]]]].
  unfold resettle. cbn [fst snd app].
  set (dl := filter (λ c, ¬ expired_at now c) (queue st r)).
  set (ex := filter (λ c, expired_at now c) (queue st r)).
  set (st1 := {| sessions := <[r := with_connection true s]> (sessions st);
                 rooms := rooms st; pending := <[r := []]> (pending st);
                 ledger := ledger st; sent := sent st |}).
  assert (Hsub : dl `sublist_of` queue st r) by apply sublist_filter.
  destruct (shrunk_ok cfg st st1 prev) as [Hwf1 Hout1]; [done|done| |done|done|].
  { intros r'. unfold st1. rewrite queue_insert.
    case_decide; [apply sublist_nil_l|done]. }
  assert (Hout1' : pushed_once st1 (prev ++ (push r <$> dl))).
  { apply (pushed_from_queue cfg r dl st); try done.
    intros id _. unfold st1. rewrite queue_insert, decide_True by done.
    by intros ?%elem_of_nil. }
  destruct (settle_all_preserving cfg Delivered dl st1 _ Hwf1 Hout1')
    as (Hwf2 & Hout2 & Hadv2).
  destruct (settle_all_preserving cfg Expired ex _ _ Hwf2 Hout2)
    as (Hwf3 & Hout3 & Hadv3).
  split; [done|]. split; [done|]. split.
  - intros id. eapply advances_trans; [apply Hadv2|apply Hadv3].
  - apply Forall_fmap, Forall_forall. intros c Hc. cbn.
    apply (wf_recorded _ _ Hwf r). by eapply elem_of_sublist.
Qed.

Lemma destroy_preserving cfg sid : preserving cfg (destroy sid).
Proof.
  intros st out Hwf Hout. unfold destroy.
  set (st1 := {| sessions := delete sid (sessions st);
                 rooms := without_member sid <$> rooms st;
                 pending := delete sid (pending st);
                 ledger := ledger st; sent := sent st |}).
  destruct (shrunk_ok cfg st st1 out) as [Hwf1 Hout1]; [done|done| |done|done|].
  { intros r. unfold queue, st1. cbn.
    destruct (decide (r = sid)) as [->|Hne].
    - rewrite lookup_delete_eq. apply sublist_nil_l.
    - by rewrite lookup_delete_ne. }
  destruct (settle_all_preserving cfg Expired (queue st sid) st1 out Hwf1 Hout1)
    as (H1 & H2 & H3).
  split; [exact H1|]. split; [exact H2|exact H3].
Qed.

Lemma expire_queue_preserving cfg now r :
  preserving cfg (λ st, expire_queue now st r).
Proof.
  intros st out Hwf Hout. unfold expire_queue, resettle. cbn [fst snd].
  unfold settle_all at 2. cbn [fmap list_fmap foldl].
  set (st1 := {| sessions := sessions st; rooms := rooms st;
                 pending := <[r := filter (λ c, ¬ expired_at now c) (queue st r)]>
                              (pending st);
                 ledger := ledger st; sent := sent st |}).
  destruct (shrunk_ok cfg st st1 out) as [Hwf1 Hout1]; [done|done| |done|done|].
  { intros r'. unfold st1. rewrite queue_insert.
    case_decide; [subst; apply sublist_filter|done]. }
  destruct (settle_all_preserving cfg Expired
              (filter (λ c, expired_at now c) (queue st r)) st1 out Hwf1 Hout1)
    as (H1 & H2 & H3).
  split; [exact H1|]. split; [exact H2|exact H3].
Qed.

Lemma sweep_preserving cfg now : preserving cfg (sweep now).
Proof.
  intros st out Hwf Hout. unfold sweep.
  set (doomed := elements (dom (filter (λ kv, session_expired now kv.2) (sessions st)))).
  destruct (preserving_foldl cfg (λ st sid, destroy sid st) doomed
              (λ sid, destroy_preserving cfg sid) st out Hwf Hout)
    as (Hwf1 & Hout1 & Hadv1).
  set (st1 := foldl (λ st sid, destroy sid st) st doomed) in *.
  set (st2 := set_rooms (filter (λ kv, ¬ room_expired now kv.2) (rooms st1)) st1).
  assert (Hwf2 : wf cfg st2) by (by apply (wf_same cfg st1)).
  assert (Hout2 : pushed_once st2 out) by exact Hout1.
  destruct (preserving_foldl cfg (expire_queue now) (elements (dom (pending st2)))
              (λ r, expire_queue_preserving cfg now r) st2 out Hwf2 Hout2)
    as (Hwf3 & Hout3 & Hadv3).
  split; [done|]. split; [done|].
  intros k. eapply advances_trans; [apply Hadv1|apply Hadv3].
Qed.

(** ** Every event *)

(** An event keeps the invariants, moves every recorded state forward, and
    pushes only envelopes that are pending or are being sent. *)
Lemma step_ok cfg st e prev :
  wf cfg st → pushed_once st prev →
  wf cfg (step cfg st e).1
  ∧ pushed_once (step cfg st e).1 (prev ++ (step cfg st e).2)
  ∧ (∀ id, advances (ledger st !! id) (ledger (step cfg st e).1 !! id))
  ∧ Forall (λ p, ledger st !! push_id p = None
                 ∨ ledger st !! push_id p = Some Pending) (step cfg st e).2.
Proof.
  intros Hwf Hout.
  assert (Hquiet : ∀ f, preserving cfg f →
            wf cfg (f st) ∧ pushed_once (f st) (prev ++ [])
            ∧ (∀ id, advances (ledger st !! id) (ledger (f st) !! id))
            ∧ Forall (λ p, ledger st !! push_id p = None
                           ∨ ledger st !! push_id p = Some Pending) []).
  { intros f Hf. rewrite app_nil_r.
    destruct (Hf st prev Hwf Hout) as (H1 & H2 & H3).
    split; [exact H1|]. split; [exact H2|]. split; [exact H3|constructor]. }
  destruct e as [sid now|sid now|rid owner now ttl max|rid sid now|rid sid
                |env rejected|sid|sid now|sid|now]; cbn [step fst snd].
  - apply Hquiet, preserving_same; intros st0; unfold create_session;
      by destruct (sessions st0 !! sid).
  - apply (Hquiet (λ st, or_unchanged st (touch now sid st))), preserving_same;
      intros st0; unfold touch; by destruct (sessions st0 !! sid).
  - apply (Hquiet (λ st, or_unchanged st (create_room now rid owner ttl max st))),
      preserving_same; intros st0; unfold create_room;
      by repeat (case_match; cbn; try done).
  - apply (Hquiet (λ st, or_unchanged st (join now rid sid st))), preserving_same;
      intros st0; unfold join; by repeat (case_match; cbn; try done).
  - by apply (Hquiet (leave rid sid)), preserving_same.
  - destruct (send cfg rejected env st) as [err|[st' out]] eqn:Hsend.
    + cbn. rewrite app_nil_r. split; [done|]. split; [done|].
      split; [intros k; apply advances_refl|done].
    + destruct (send_ok cfg rejected env st st' out prev Hwf Hout Hsend)
        as (H1 & H2 & H3 & H4).
      split; [done|]. split; [done|]. split; [done|].
      eapply Forall_impl; [exact H4|]. intros p ->. left.
      destruct (ledger st !! sent st) eqn:Hl; [|done].
      assert (sent st < sent st); [|lia].
      apply (wf_numbered _ _ Hwf). rewrite Hl. eauto.
  - by apply (Hquiet (connection_lost sid)), preserving_same.
  - destruct (reconnect_ok cfg now sid st prev Hwf Hout) as (H1 & H2 & H3 & H4).
    split; [done|]. split; [done|]. split; [done|].
    eapply Forall_impl; [exact H4|]. intros p Hp. by right.
  - apply Hquiet, destroy_preserving.
  - apply Hquiet, sweep_preserving.
Qed.

Lemma relay_run_cons cfg st e es :
  run cfg st (e :: es)
  = ((run cfg (step cfg st e).1 es).1,
     (step cfg st e).2 ++ (run cfg (step cfg st e).1 es).2).
Proof.
  cbn [run]. destruct (step cfg st e) as [st1 out1]. cbn [fst snd].
  by destruct (run cfg st1 es) as [st2 out2].
Qed.

Lemma run_ok cfg st es prev :
  wf cfg st → pushed_once st prev →
  wf cfg (run cfg st es).1
  ∧ pushed_once (run cfg st es).1 (prev ++ (run cfg st es).2)
  ∧ (∀ id, advances (ledger st !! id) (ledger (run cfg st es).1 !! id))
  ∧ (∀ id, terminal_state (ledger st !! id) →
           Forall (λ p, push_id p ≠ id) (run cfg st es).2).
Proof.
  revert st prev. induction es as [|e es IH]; intros st prev Hwf Hout.
  - cbn. rewrite app_nil_r. split; [done|]. split; [done|].
    split; [intros k; apply advances_refl|done].
  - rewrite relay_run_cons. cbn [fst snd].
    destruct (step_ok cfg st e prev Hwf Hout) as (Hwf1 & Hout1 & Hadv1 & Hpush1).
    destruct (IH _ _ Hwf1 Hout1) as (Hwf2 & Hout2 & Hadv2 & Hpush2).
    split; [done|]. split; [by rewrite app_assoc|]. split.
    + intros k. eapply advances_trans; [apply Hadv1|apply Hadv2].
    + intros id Hterm. apply Forall_app. split.
      * eapply Forall_impl; [exact Hpush1|]. intros p Hp Heq.
        cbv beta in Hp. rewrite Heq in Hp.
        destruct Hterm as [Hd|He]; destruct Hp as [Hp|Hp]; congruence.
      * apply Hpush2. specialize (Hadv1 id).
        destruct Hterm as [Hd|He]; [left|right].
        -- rewrite Hd in Hadv1. exact Hadv1.
        -- rewrite He in Hadv1. exact Hadv1.
Qed.

Lemma init_wf cfg : wf cfg init ∧ pushed_once init [].
Proof.
  split; [split|].
  - intros r c Hc. unfold queue, init in Hc. cbn in Hc.
    rewrite lookup_empty in Hc. by apply elem_of_nil in Hc.
  - intros r. unfold queue, init. cbn. rewrite lookup_empty. apply NoDup_nil_2.
  - intros id [s Hs]. unfold init in Hs. cbn in Hs. by rewrite lookup_empty in Hs.
  - intros r. unfold queue, init. cbn. rewrite lookup_empty. cbn. lia.
  - intros id r. unfold pushes. cbn. split; lia.
Qed.

(** ** At most once *)




(** The expiry scenario, computed: the envelope of time 0 has expired when
    B reconnects at 6 and is discarded, the one of time 4 is pushed, once. *)
Example expiry_scenario_computed :
  (run sample_config init expiry_scenario).2
  = [{| push_to := "B"; push_id := 1; push_blob := [Byte.x02] |}]
  ∧ ledger (run sample_config init expiry_scenario).1 !! 0 = Some Expired
  ∧ ledger (run sample_config init expiry_scenario).1 !! 1 = Some Delivered
  ∧ queue (run sample_config init expiry_scenario).1 "B" = [].
Proof. vm_compute. done. Qed.

(** A room with one member on line and one away: the envelope is pushed to
    the first at once and stays pending for the second; it is delivered
    when the second reconnects, and pushed to nobody after that. *)
Example fan_out_computed :
  ledger (run sample_config init
            [Handshake "A" 0%Z; Handshake "B" 0%Z; Handshake "C" 0%Z;
             CreateRoom "R" "A" 1%Z 60%Z None; Join "R" "B" 1%Z;
             Join "R" "C" 1%Z; ConnectionLost "C";
             Send room_envelope ∅]).1 !! 0 = Some Pending
  ∧ (run sample_config init
       [Handshake "A" 0%Z; Handshake "B" 0%Z; Handshake "C" 0%Z;
        CreateRoom "R" "A" 1%Z 60%Z None; Join "R" "B" 1%Z;
        Join "R" "C" 1%Z; ConnectionLost "C";
        Send room_envelope ∅; Reconnect "C" 3%Z; Reconnect "B" 4%Z]).2
    = [{| push_to := "B"; push_id := 0; push_blob := blob room_envelope |};
       {| push_to := "C"; push_id := 0; push_blob := blob room_envelope |}]
  ∧ ledger (run sample_config init
              [Handshake "A" 0%Z; Handshake "B" 0%Z; Handshake "C" 0%Z;
               CreateRoom "R" "A" 1%Z 60%Z None; Join "R" "B" 1%Z;
               Join "R" "C" 1%Z; ConnectionLost "C";
               Send room_envelope ∅; Reconnect "C" 3%Z; Reconnect "B" 4%Z]).1
      !! 0 = Some Delivered.
Proof. vm_compute. done. Qed.

(** ** The pending queue *)

Lemma most_recent_app {A} n (l k : list A) :
  most_recent n (most_recent n l ++ k) = most_recent n (l ++ k).
Proof.
  unfold most_recent. rewrite !length_app, length_drop.
  destruct (decide (length l ≤ n)) as [Hle|Hgt].
  - replace (length l - n) with 0 by lia. cbn [drop].
    by replace (length l - 0) with (length l) by lia.
  - replace (length l - (length l - n) + length k - n) with (length k) by lia.
    replace (length l + length k - n) with ((length l - n) + length k) by lia.
    rewrite <- drop_drop. f_equal. rewrite drop_app_le by lia. done.
Qed.

Lemma most_recent_fmap {A B} (f : A → B) n (l : list A) :
  f <$> most_recent n l = most_recent n (f <$> l).
Proof. unfold most_recent. by rewrite fmap_drop, length_fmap. Qed.

Lemma send_offline cfg rejected env st r :
  is_Some (sessions st !! r) → online st r = false → addressed_to st r env →
  send cfg rejected env st
  = inr (conclude (sent st)
           (hold (capacity cfg) r (sent st, env) (next_envelope st, []))).
Proof.
  intros [s Hs] Hoff (Hto & from & Hfrom & Hlive). unfold send.
  rewrite Hfrom, Hto. unfold live. rewrite bool_decide_eq_true_2 by done.
  unfold resolve. rewrite Hs. rewrite elements_singleton. cbn [foldl].
  unfold deliver. cbn [fst snd].
  replace (online (next_envelope st) r) with false by done. done.
Qed.

Lemma held_queue cap r c st out id :
  queue (conclude id (hold cap r c (st, out))).1 r
  = most_recent cap (queue st r ++ [c])
  ∧ sessions (conclude id (hold cap r c (st, out))).1 = sessions st
  ∧ (conclude id (hold cap r c (st, out))).2 = out.
Proof.
  unfold conclude. rewrite hold_unfold. cbn [fst snd].
  set (to := if bool_decide (out = []) then Expired else Delivered).
  set (st1 := settle_all Expired _ _).
  destruct (settle_spec to st1 id) as (Hs & _ & Hp & _).
  destruct (settle_all_spec Expired
              (filter (λ d, d.1 ≠ c.1)
                 (take (length (queue st r ++ [c]) - cap) (queue st r ++ [c])))
              {| sessions := sessions st; rooms := rooms st;
                 pending := <[r := most_recent cap (queue st r ++ [c])]> (pending st);
                 ledger := ledger st; sent := sent st |}) as (Hs' & _ & Hp' & _).
  fold st1 in Hs', Hp'. split; [|split; [by rewrite Hs, Hs'|done]].
  unfold queue. rewrite Hp, Hp'. cbn. by rewrite lookup_insert_eq.
Qed.

Lemma most_recent_all {A} n (l : list A) : length l ≤ n → most_recent n l = l.
Proof. intros Hle. unfold most_recent. by replace (length l - n) with 0 by lia. Qed.

Lemma sends_offline cfg rejected r envs st :
  is_Some (sessions st !! r) → online st r = false →
  length (queue st r) ≤ capacity cfg →
  Forall (addressed_to st r) envs →
  (queue (run cfg st ((λ env, Send env rejected) <$> envs)).1 r).*2
  = most_recent (capacity cfg) ((queue st r).*2 ++ envs)
  ∧ (run cfg st ((λ env, Send env rejected) <$> envs)).2 = [].
Proof.
  intros Hr Hoff Hlen Hall. revert st Hr Hoff Hlen Hall.
  induction envs as [|env envs IH]; intros st Hr Hoff Hlen Hall.
  - cbn. rewrite app_nil_r, most_recent_all; [done|]. by rewrite length_fmap.
  - apply Forall_cons in Hall as [Henv Hall].
    rewrite fmap_cons, relay_run_cons. cbn [fst snd step].
    rewrite (send_offline cfg rejected env st r) by done.
    destruct (held_queue (capacity cfg) r (sent st, env) (next_envelope st) []
                (sent st)) as (Hq & Hss & Hnone).
    set (st1 := (conclude (sent st)
                   (hold (capacity cfg) r (sent st, env) (next_envelope st, []))).1)
      in *.
    destruct (IH st1) as [IHq IHo].
    + by rewrite Hss.
    + unfold online. rewrite Hss. exact Hoff.
    + rewrite Hq. apply most_recent_length.
    + eapply Forall_impl; [exact Hall|]. intros e (Hto & from & Hfrom & Hlive).
      split; [done|]. exists from. by rewrite Hss.
    + rewrite IHq, IHo, Hnone, Hq. split; [|done].
      rewrite most_recent_fmap, fmap_app, most_recent_app.
      by rewrite <- app_assoc.
Qed.

(** C8. A recipient that is registered and has no live connection is sent
    envelopes, one after the other.  Nothing is pushed; its queue then holds
    the [capacity] most recent of what it held and what was sent, oldest
    first; after [capacity + 1] envelopes that is exactly the last
    [capacity] of them, the first one dropped.  And in every state the relay
    reaches from its initial state no queue is longer than the capacity. *)
Theorem pending_overflow_keeps_most_recent (cfg : Config) (st : State)
    (r : string) (envs : list Envelope) (rejected : gset string) :
  is_Some (sessions st !! r) → online st r = false →
  length (queue st r) ≤ capacity cfg →
  Forall (addressed_to st r) envs →
  let after := run cfg st ((λ env, Send env rejected) <$> envs) in
  (queue after.1 r).*2 = most_recent (capacity cfg) ((queue st r).*2 ++ envs)
  ∧ (length envs = S (capacity cfg) → (queue after.1 r).*2 = drop 1 envs)
  ∧ length (queue after.1 r) ≤ capacity cfg
  ∧ after.2 = []
  ∧ (∀ es r', length (queue (run cfg init es).1 r') ≤ capacity cfg).
Proof.
  intros Hr Hoff Hlen Hall after.
  destruct (sends_offline cfg rejected r envs st Hr Hoff Hlen Hall) as [Hq Ho].
  fold after in Hq, Ho.
  split; [exact Hq|]. split; [|split; [|split; [exact Ho|]]].
  - intros Hn. rewrite Hq. unfold most_recent.
    rewrite length_app, Hn.
    replace (length (queue st r).*2 + S (capacity cfg) - capacity cfg)
      with (length (queue st r).*2 + 1) by lia.
    apply drop_app_add.
  - assert (Hshort : length (queue after.1 r).*2 ≤ capacity cfg)
      by (rewrite Hq; apply most_recent_length).
    by rewrite length_fmap in Hshort.
  - intros es r'. destruct (init_wf cfg) as [Hwf0 Hout0].
    destruct (run_ok cfg init es [] Hwf0 Hout0) as (Hwf1 & _ & _).
    apply (wf_bounded _ _ Hwf1).
Qed.

Lemma pending_overflow_keeps_most_recent_witness :
  let after :=
    run sample_config sample_state
      ((λ env, Send env ∅)
         <$> [sample_envelope Byte.x01; sample_envelope Byte.x02;
              sample_envelope Byte.x03]) in
  (queue after.1 "B").*2
  = most_recent 2
      ((queue sample_state "B").*2
         ++ [sample_envelope Byte.x01; sample_envelope Byte.x02;
             sample_envelope Byte.x03])
  ∧ (length [sample_envelope Byte.x01; sample_envelope Byte.x02;
             sample_envelope Byte.x03] = 3 →
     (queue after.1 "B").*2
     = drop 1 [sample_envelope Byte.x01; sample_envelope Byte.x02;
               sample_envelope Byte.x03])
  ∧ length (queue after.1 "B") ≤ 2
  ∧ after.2 = []
  ∧ (∀ es r', length (queue (run sample_config init es).1 r') ≤ 2).
Proof.
  apply (pending_overflow_keeps_most_recent sample_config sample_state "B"
           [sample_envelope Byte.x01; sample_envelope Byte.x02;
            sample_envelope Byte.x03] ∅).
  - exists (sample_session false). vm_compute. reflexivity.
  - vm_compute. reflexivity.
  - vm_compute. lia.
  - repeat constructor; exists "A"; split; try reflexivity;
      exists (sample_session true); vm_compute; reflexivity.
Defined.

(** The same queue, computed. *)
Example overflow_computed :
  (queue (run sample_config sample_state
            ((λ env, Send env ∅)
               <$> [sample_envelope Byte.x01; sample_envelope Byte.x02;
                    sample_envelope Byte.x03])).1 "B").*2
  = [sample_envelope Byte.x02; sample_envelope Byte.x03].
Proof. vm_compute. reflexivity. Qed.

(** The room scenario, computed: B is pushed the envelope once, A is not
    pushed anything, and nothing is left pending. *)
Example room_scenario_computed :
  (run sample_config init room_scenario).2
  = [{| push_to := "B"; push_id := 0; push_blob := blob room_envelope |}]
  ∧ queue (run sample_config init room_scenario).1 "B" = []
  ∧ ledger (run sample_config init room_scenario).1 !! 0 = Some Delivered.
Proof. vm_compute. done. Qed.

End RelayProperties.

(** * More about the two servers *)

Section ServerRuns.
Import JS SocketIO Express Wire Observe.

(** What one event makes the scaffolded server hand to a socket. *)
Lemma received_step s e to :
  received to (step Scaffold.app s e).2 = option_list (relayed (connected s) to e).
Proof.
  destruct e as [id|id size ev args|id reason].
  - done.
  - rewrite scaffold_frame. cbn [relayed].
    destruct (decide (id ∈ connected s)) as [Hin|Hout].
    + destruct (decide ((maxHttpBufferSize < size)%N ∨ ev ∈ reserved))
        as [Hno|Hok]; cbn [snd].
      * rewrite decide_False; [done|]. intros (_ & Hsize & ->).
        destruct Hno as [?|Hres]; [lia|by apply message_not_reserved].
      * destruct (decide (ev = "message")) as [->|Hev].
        -- rewrite decide_True by (split; [done|split; [lia|done]]).
           rewrite received_on_message. by case_decide.
        -- rewrite decide_False; [done|]. by intros (_ & _ & ?).
    + rewrite decide_False; [done|]. by intros [? _].
  - cbn [step relayed]. by case_decide.
Qed.

Lemma accepted_keeps_table app s e : accepted e → (step app s e).1 = s.
Proof.
  intros (id & size & ev & args & -> & Hsize & Hev). cbn [step].
  case_decide; [|done]. rewrite decide_False by lia. by rewrite decide_False.
Qed.

(** While nobody connects or disconnects and the server accepts every
    frame, the connection table stays as it is and a connected socket
    receives the [message] frames of the other connected sockets, all of
    them, each once, in the order they were sent and as JSON carries them,
    and nothing else. *)
Theorem frames_arrive_in_order (s : Server) (es : list Event) (to : SocketId) :
  frames_only es →
  (run Scaffold.app s es).1 = s
  ∧ received to (run Scaffold.app s es).2 = omap (relayed (connected s) to) es.
Proof.
  induction 1 as [|e es He Hes [IHs IHr]]; [done|].
  rewrite run_cons. cbn [fst snd].
  rewrite received_app, received_step, !(accepted_keeps_table _ _ _ He).
  rewrite IHs, IHr. split; [done|].
  cbn [omap list_omap]. by destruct (relayed (connected s) to e).
Qed.

Lemma frames_arrive_in_order_witness :
  (run Scaffold.app three_clients
     [Frame "A" 20 "message" [Str "1"]; Frame "B" 20 "message" [Str "2"];
      Frame "A" 14 "typing" []; Frame "A" 20 "message" [Str "3"]]).1
  = three_clients
  ∧ received "B"
      (run Scaffold.app three_clients
         [Frame "A" 20 "message" [Str "1"]; Frame "B" 20 "message" [Str "2"];
          Frame "A" 14 "typing" []; Frame "A" 20 "message" [Str "3"]]).2
    = omap (relayed (connected three_clients) "B")
        [Frame "A" 20 "message" [Str "1"]; Frame "B" 20 "message" [Str "2"];
         Frame "A" 14 "typing" []; Frame "A" 20 "message" [Str "3"]].
Proof.
  apply (frames_arrive_in_order three_clients).
  repeat constructor;
    (eexists _, _, _, _; split; [reflexivity|]; split;
       [by vm_compute|apply (bool_decide_unpack _); vm_compute; exact I]).
Defined.

(** The same run, computed: B gets A's two messages, in order, and neither
    its own nor the frame of another event name. *)
Example frames_arrive_computed :
  received "B"
    (run Scaffold.app three_clients
       [Frame "A" 20 "message" [Str "1"]; Frame "B" 20 "message" [Str "2"];
        Frame "A" 14 "typing" []; Frame "A" 20 "message" [Str "3"]]).2
  = [("message", [Str "1"]); ("message", [Str "3"])].
Proof. vm_compute. reflexivity. Qed.

(** Whatever a socket receives over a run of the scaffolded server is the
    first argument, as JSON carries it ([null] when there is none), of a
    [message] frame within the size limit that another socket sent during
    that run: nothing is echoed to the sender, and nothing arrives that no
    frame stands for. *)
Theorem received_was_sent_by_another (s : Server) (es : list Event)
    (to : SocketId) (name : string) (data : list Value) :
  (name, data) ∈ received to (run Scaffold.app s es).2 →
  name = "message"
  ∧ ∃ sender size args,
      Frame sender size "message" args ∈ es
      ∧ (size ≤ maxHttpBufferSize)%N ∧ sender ≠ to
      ∧ data = [json (default Undefined (head args))].
Proof.
  revert s. induction es as [|e es IH]; intros s.
  - intros Hin. by apply elem_of_nil in Hin.
  - rewrite run_cons. cbn [snd]. rewrite received_app, received_step.
    intros Hin. apply elem_of_app in Hin as [Hin|Hin].
    + destruct e as [id|id size ev args|id reason]; cbn [relayed] in Hin;
        try (by apply elem_of_nil in Hin).
      case_decide as Hfrom; [|by apply elem_of_nil in Hin].
      case_decide as Hto; [|by apply elem_of_nil in Hin].
      apply list_elem_of_singleton in Hin. injection Hin as -> ->.
      destruct Hfrom as (_ & Hsize & ->). destruct Hto as [_ Hne].
      split; [done|]. exists id, size, args.
      split; [apply list_elem_of_here|done].
    + destruct (IH _ Hin)
        as (Hname & sender & size & args & Hsent & Hsize & Hne & Hdata).
      split; [done|]. exists sender, size, args.
      split; [apply elem_of_cons; by right|done].
Qed.

Lemma received_was_sent_by_another_witness :
  ("message", [hello])
    ∈ received "B"
        (run Scaffold.app three_clients
           [Disconnect "C" PingTimeout; Frame "A" 64 "message" [hello]]).2
  ∧ "message" = "message"
  ∧ ∃ sender size args,
      Frame sender size "message" args
        ∈ [Disconnect "C" PingTimeout; Frame "A" 64 "message" [hello]]
      ∧ (size ≤ maxHttpBufferSize)%N ∧ sender ≠ "B"
      ∧ [hello] = [json (default Undefined (head args))].
Proof.
  assert (Hin : ("message", [hello])
                ∈ received "B"
                    (run Scaffold.app three_clients
                       [Disconnect "C" PingTimeout;
                        Frame "A" 64 "message" [hello]]).2).
  { vm_compute. apply list_elem_of_here. }
  split; [exact Hin|].
  exact (received_was_sent_by_another three_clients _ "B" "message" [hello] Hin).
Defined.

(** ** The two servers side by side *)

Lemma lifecycle_on_message sender payload s :
  filter (λ e, lifecycle e = true) (Scaffold.on_message sender payload s) = [].
Proof.
  unfold Scaffold.on_message, broadcast_emit. rewrite filter_cons.
  rewrite decide_False.
  - induction (elements (connected s ∖ {[sender]})) as [|to l IH]; [done|].
    rewrite fmap_cons, filter_cons. by rewrite decide_False.
  - cbn [lifecycle]. by destruct (Scaffold.logged_type payload).
Qed.

Lemma backend_step_of_scaffold s e :
  (step Backend.app s e).1 = (step Scaffold.app s e).1
  ∧ (step Backend.app s e).2
    = filter (λ e, lifecycle e = true) (step Scaffold.app s e).2.
Proof.
  destruct e as [id|id size ev args|id reason].
  - done.
  - rewrite backend_frame, scaffold_frame.
    destruct (decide (id ∈ connected s)) as [Hin|Hout].
    + destruct (decide ((maxHttpBufferSize < size)%N ∨ ev ∈ reserved))
        as [Hno|Hok].
      * by rewrite decide_True.
      * rewrite decide_False by (by intros [_ ?]). cbn [fst snd].
        split; [done|]. case_decide; [|done].
        by rewrite lifecycle_on_message.
    + rewrite decide_False by (by intros [? _]). done.
  - cbn [step]. by case_decide.
Qed.

(** On the same events the two servers keep the same connection table, and
    the checked-in backend does what the scaffolded server does with
    everything about messages left out: its effects are the scaffolded
    server's connection and disconnect lines, in the same order. *)
Theorem backend_is_scaffold_without_messages (s : Server) (es : list Event) :
  (run Backend.app s es).1 = (run Scaffold.app s es).1
  ∧ (run Backend.app s es).2
    = filter (λ e, lifecycle e = true) (run Scaffold.app s es).2.
Proof.
  revert s. induction es as [|e es IH]; intros s; [done|].
  rewrite !run_cons. cbn [fst snd].
  destruct (backend_step_of_scaffold s e) as [Hs Ho].
  rewrite Hs, Ho, filter_app.
  destruct (IH (step Scaffold.app s e).1) as [IHs IHo].
  by rewrite IHs, IHo.
Qed.

(** ** What the console shows of a frame *)

(** The line the scaffolded server writes for a [message] frame of a
    connected socket, in a message within the size limit, names [unknown] unless the frame's first argument is an
    object with a truthy [type] member (a frame without arguments, [null], a
    string, an object without [type] or with an empty one all give
    [unknown]); and then it shows that member itself, whatever it is. *)
Theorem console_shows_type_or_unknown (s : Server) (sender : SocketId)
    (size : N) (args : list Value) :
  sender ∈ connected s → (size ≤ maxHttpBufferSize)%N →
  let payload := default Undefined (head args) in
  let out := (step Scaffold.app s (Frame sender size "message" args)).2 in
  (∀ fields t,
     payload = Object fields → field "type" fields = Some t → truthy t = true →
     console out = [[Str "→ message received (server routing):"; t]])
  ∧ ((∀ fields t,
        payload = Object fields → field "type" fields = Some t →
        truthy t = false)
     → console out = [[Str "→ message received (server routing):";
                       Str "unknown"]]).
Proof.
  intros Hin Hsize. cbv zeta. rewrite scaffold_message by done. cbn [snd].
  rewrite decide_True by done. rewrite console_on_message.
  generalize (default Undefined (head args)). intros payload. split.
  - intros fields t Hp Ht Htruthy. rewrite Hp, logged_type_object, Ht.
    by rewrite Htruthy.
  - intros Hnone. do 3 f_equal.
    destruct payload as [| | | | | | |fields] eqn:Hp; try done.
    + by destruct b.
    + unfold Scaffold.logged_type, and_then, cond.
      destruct (truthy (Number x)) eqn:Hx; [done|by rewrite Hx].
    + unfold Scaffold.logged_type, and_then, cond.
      destruct (truthy (Str s0)) eqn:Hx; [done|by rewrite Hx].
    + rewrite logged_type_object.
      destruct (field "type" fields) as [t|] eqn:Ht; [|done].
      by rewrite (Hnone fields t).
Qed.

Lemma console_shows_type_or_unknown_witness :
  (∀ fields t,
     default Undefined (head [hello]) = Object fields →
     field "type" fields = Some t → truthy t = true →
     console (step Scaffold.app three_clients (Frame "A" 64 "message" [hello])).2
     = [[Str "→ message received (server routing):"; t]])
  ∧ ((∀ fields t,
        default Undefined (head [hello]) = Object fields →
        field "type" fields = Some t → truthy t = false)
     → console (step Scaffold.app three_clients (Frame "A" 64 "message" [hello])).2
       = [[Str "→ message received (server routing):"; Str "unknown"]]).
Proof.
  apply (console_shows_type_or_unknown three_clients "A" 64 [hello]).
  - apply three_clients_connected.
  - by vm_compute.
Defined.

(** The edge cases, computed: no argument, [null], a string, an object
    without [type], one with an empty [type], and one whose [type] is an
    object. *)
Example console_edge_cases :
  Scaffold.logged_type (default Undefined (head [])) = Str "unknown"
  ∧ Scaffold.logged_type Null = Str "unknown"
  ∧ Scaffold.logged_type (Str "send") = Str "unknown"
  ∧ Scaffold.logged_type (Object [("payload", Str "x")]) = Str "unknown"
  ∧ Scaffold.logged_type (Object [("type", Str "")]) = Str "unknown"
  ∧ Scaffold.logged_type (Object [("type", Object [("secret", Str "x")])])
    = Object [("secret", Str "x")].
Proof. vm_compute. done. Qed.

(** ** Routes that are not there *)

(** The scaffolded server has no route that changes anything: a POST, PUT,
    PATCH or DELETE that its two middlewares hand on gets Express's 404,
    whatever its path and body. *)
Theorem scaffold_has_no_write_route (cors json : Middleware)
    (req req1 req2 : Request) (res1 res2 : Response) :
  cors req fresh_response = Next req1 res1 →
  json req1 res1 = Next req2 res2 →
  writes req2 = true →
  Scaffold.http cors json req = not_found req2 res2
  ∧ status (Scaffold.http cors json req) = 404.
Proof.
  intros Hcors Hjson Hw. unfold Scaffold.http, handle, Scaffold.stack.
  cbn [walk]. rewrite Hcors, Hjson. unfold route_matches.
  unfold writes in Hw. unfold not_found, sent.
  by destruct (method req2).
Qed.

Lemma scaffold_has_no_write_route_witness :
  Scaffold.http adds_header calls_next post_message_send
  = not_found post_message_send
      {| status := 200;
         res_headers := [("X-Powered-By", "Express");
                         ("Access-Control-Allow-Origin", "*")];
         res_body := NoBody |}
  ∧ status (Scaffold.http adds_header calls_next post_message_send) = 404.
Proof.
  exact (scaffold_has_no_write_route adds_header calls_next post_message_send
           post_message_send post_message_send _ _ eq_refl eq_refl eq_refl).
Defined.

End ServerRuns.

(** * Startup *)

Section StartupProperties.
Import JS Startup.

(** The server always has a port to listen on: an unset or empty [PORT]
    gives the number 5000, shown as [5000] in the startup line, and nothing
    else does; any other value, [0] and text that is no number included, is
    handed to [listen] as the string it is and shown as it stands. *)
Theorem port_falls_back_only_when_empty (env_port : option string) :
  port_text (port (startup env_port)) ≠ ""
  ∧ (port (startup env_port) = Literal 5000
     ↔ env_port = None ∨ env_port = Some "")
  ∧ (port (startup env_port) = Literal 5000 →
     on_listening (startup env_port)
     = "🚀 Veil Backend running on http://localhost:5000")
  ∧ (∀ value, env_port = Some value → value ≠ "" →
       startup env_port
       = {| port := FromEnv value;
            on_listening := "🚀 Veil Backend running on http://localhost:"
                            +:+ value |}).
Proof.
  assert (Hdefault : port_text (Literal 5000) = "5000") by reflexivity.
  destruct env_port as [value|]; unfold startup, PORT; cbn [truthy port].
  - destruct (String.eqb_spec value "") as [->|Hne]; cbn [negb on_listening].
    + split; [by rewrite Hdefault|].
      split; [split; [intros _; by right|done]|].
      split; [intros _; by rewrite Hdefault|]. by intros value [= <-].
    + cbn [port_text]. split; [done|]. split.
      * split; [done|]. by intros [|[= ->]].
      * split; [done|]. by intros value' [= <-].
  - cbn [on_listening]. split; [by rewrite Hdefault|].
    split; [split; [intros _; by left|done]|].
    split; [intros _; by rewrite Hdefault|]. done.
Qed.

End StartupProperties.

(** * The scripts in [package.json] *)

Section PackageJsonProperties.
Import JS PackageJson.

Lemma field_assign key v fields : field key (assign key v fields) = Some v.
Proof.
  induction fields as [|[k x] rest IH]; cbn [assign field].
  - by rewrite String.eqb_refl.
  - destruct (String.eqb_spec k key) as [->|Hne]; cbn [field].
    + by rewrite String.eqb_refl.
    + by destruct (String.eqb_spec k key).
Qed.

Lemma field_assign_other key key' v fields :
  key' ≠ key → field key' (assign key v fields) = field key' fields.
Proof.
  intros Hne. induction fields as [|[k x] rest IH]; cbn [assign field].
  - by destruct (String.eqb_spec key key').
  - destruct (String.eqb_spec k key) as [->|Hk]; cbn [field].
    + by destruct (String.eqb_spec key key').
    + by rewrite IH.
Qed.

Lemma assign_same key v fields :
  field key fields = Some v → assign key v fields = fields.
Proof.
  induction fields as [|[k x] rest IH]; cbn [assign field]; [done|].
  destruct (String.eqb_spec k key) as [->|Hk].
  - by intros [= ->].
  - intros Hf. by rewrite IH.
Qed.

Lemma field_in_keys key fields :
  key ∈ keys fields ↔ is_Some (field key fields).
Proof.
  unfold keys. induction fields as [|[k x] rest IH]; cbn [field].
  - split; [by intros ?%elem_of_nil|by intros [? ?]].
  - rewrite fmap_cons, elem_of_cons. cbn [fst].
    destruct (String.eqb_spec k key) as [->|Hk].
    + split; [by eauto|by left].
    + rewrite <- IH. split; [by intros [->|?]|by right].
Qed.

Lemma keys_assign key v fields :
  keys (assign key v fields)
  = if decide (key ∈ keys fields) then keys fields else keys fields ++ [key].
Proof.
  unfold keys. induction fields as [|[k x] rest IH]; cbn [assign].
  - rewrite decide_False; [done|by intros ?%elem_of_nil].
  - rewrite fmap_cons. cbn [fst].
    destruct (String.eqb_spec k key) as [->|Hk].
    + rewrite decide_True; [done|by left].
    + rewrite fmap_cons, IH. cbn [fst]. case_decide as Hin.
      * rewrite decide_True; [done|by right].
      * rewrite decide_False; [done|].
        by intros [->|?]%elem_of_cons.
Qed.

(** The assignments of the script on an object's field list. *)
Lemma set_scripts_object entries fields :
  foldl set_script (Object fields) entries
  = Object (foldl (λ fs entry, assign entry.1 (Str entry.2) fs) fields entries).
Proof.
  revert fields. induction entries as [|e es IH]; intros fields; [done|].
  cbn [foldl set_script]. by rewrite IH.
Qed.

Lemma set_scripts_other entries scripts :
  (∀ fields, scripts ≠ Object fields) →
  foldl set_script scripts entries = scripts.
Proof.
  intros Hno. induction entries as [|e es IH]; [done|].
  cbn [foldl]. replace (set_script scripts e) with scripts; [done|].
  destruct scripts; try done. by destruct (Hno fields).
Qed.

Lemma set_scripts_truthy entries scripts :
  truthy (foldl set_script scripts entries) = truthy scripts.
Proof.
  destruct scripts;
    try (match goal with
         | |- truthy (foldl _ ?x _) = _ =>
             by rewrite (set_scripts_other entries x)
         end).
  by rewrite set_scripts_object.
Qed.

Lemma assigned_untouched key entries fields :
  key ∉ entries.*1 →
  field key (foldl (λ fs entry, assign entry.1 (Str entry.2) fs) fields entries)
  = field key fields.
Proof.
  revert fields. induction entries as [|[k c] es IH]; intros fields Hnot;
    [done|].
  rewrite fmap_cons, not_elem_of_cons in Hnot. destruct Hnot as [Hne Hnot].
  cbn [foldl fst snd]. rewrite IH by done. by apply field_assign_other.
Qed.

Lemma assigned_installed key command entries fields :
  NoDup entries.*1 → (key, command) ∈ entries →
  field key (foldl (λ fs entry, assign entry.1 (Str entry.2) fs) fields entries)
  = Some (Str command).
Proof.
  revert fields. induction entries as [|[k c] es IH]; intros fields Hnd Hin.
  - by apply elem_of_nil in Hin.
  - rewrite fmap_cons in Hnd. apply NoDup_cons in Hnd as [Hk Hnd].
    cbn [foldl fst snd]. apply elem_of_cons in Hin as [[= -> ->]|Hin].
    + rewrite assigned_untouched by done. apply field_assign.
    + by apply IH.
Qed.

Lemma assigned_again entries fields :
  NoDup entries.*1 →
  (∀ key command, (key, command) ∈ entries →
                  field key fields = Some (Str command)) →
  foldl (λ fs entry, assign entry.1 (Str entry.2) fs) fields entries = fields.
Proof.
  intros _. induction entries as [|[k c] es IH]; intros Hall; [done|].
  cbn [foldl fst snd]. rewrite assign_same.
  - apply IH. intros key command Hin. apply Hall. by right.
  - apply Hall. by left.
Qed.

Lemma or_else_truthy a b : truthy a = true → or_else a b = a.
Proof. unfold or_else. by intros ->. Qed.

(** *** The file as it is written *)

Lemma json_defined v : json v ≠ Undefined.
Proof. destruct v as [| |b|x|str|bs|items|fields]; try done. by destruct x. Qed.

Lemma json_members_cons k x fields :
  x ≠ Undefined →
  json_members ((k, x) :: fields) = (k, json x) :: json_members fields.
Proof. by destruct x. Qed.

Lemma undefined_or_not (x : Value) : x = Undefined ∨ x ≠ Undefined.
Proof. destruct x; first [by left|by right]. Qed.

Lemma json_idempotent v : json (json v) = json v.
Proof.
  induction v as [| |b|x|str|bs|items IH|fields IH] using Value_nested_ind;
    try done.
  - by destruct x.
  - cbn [json]. f_equal. induction IH as [|x items Hx _ IH]; [done|].
    cbn [map]. by rewrite Hx, IH.
  - rewrite !json_object. f_equal.
    induction IH as [|[k x] fields Hx _ IH]; [done|]. cbn [snd] in Hx.
    destruct (undefined_or_not x) as [->|Hdef]; [done|].
    rewrite (json_members_cons k x) by done.
    rewrite json_members_cons by apply json_defined.
    by rewrite Hx, IH.
Qed.

Lemma field_json_members key fields v :
  field key fields = Some v → v ≠ Undefined →
  field key (json_members fields) = Some (json v).
Proof.
  intros Hf Hv. induction fields as [|[k x] fields IH]; [done|].
  cbn [field] in Hf. destruct (String.eqb_spec k key) as [->|Hk].
  - injection Hf as ->. destruct v; try done; cbn [json_members field];
      by rewrite String.eqb_refl.
  - specialize (IH Hf). destruct x; cbn [json_members field]; try done;
      by destruct (String.eqb_spec k key).
Qed.

Lemma json_members_defined fields :
  Forall (λ kv, kv.2 ≠ Undefined) fields →
  json_members fields = (λ kv, (kv.1, json kv.2)) <$> fields.
Proof.
  induction 1 as [|[k x] fields Hx Hfields IH]; [done|].
  rewrite fmap_cons. cbn [fst snd] in *. rewrite <- IH.
  by destruct x.
Qed.

Lemma field_fmap_json key fields :
  field key ((λ kv, (kv.1, json kv.2)) <$> fields) = json <$> field key fields.
Proof.
  induction fields as [|[k x] fields IH]; [done|].
  rewrite fmap_cons. cbn [field fst snd].
  by destruct (String.eqb_spec k key).
Qed.

Lemma json_not_object v :
  (∀ fields, v ≠ Object fields) → ∀ fields, json v ≠ Object fields.
Proof.
  intros Hv fields. destruct v as [| |b|x|str|bs|items|fs]; try done.
  - by destruct x.
  - by destruct (Hv fs).
Qed.

Lemma truthy_json v :
  truthy v = true → (∀ sign, v ≠ Number (S754_infinity sign)) →
  truthy (json v) = true.
Proof.
  intros Ht Hinf. destruct v as [| |b|x|str|bs|items|fs]; try done.
  destruct x as [sign|sign| |sign m e]; try done. by destruct (Hinf sign).
Qed.

(** A second pass over scripts that were written finds them in place. *)
Lemma set_scripts_again entries scripts :
  NoDup entries.*1 →
  foldl set_script (json (foldl set_script scripts entries)) entries
  = json (foldl set_script scripts entries).
Proof.
  intros Hnd. destruct scripts as [| |b|x|str|bs|items|old];
    try (match goal with
         | |- foldl _ (json (foldl _ ?v _)) _ = _ =>
             rewrite (set_scripts_other entries v) by done;
             apply set_scripts_other, json_not_object; done
         end).
  rewrite set_scripts_object, json_object, set_scripts_object. f_equal.
  apply assigned_again; [done|]. intros key command Hin.
  rewrite (field_json_members key _ (Str command)); [done| |done].
  by apply assigned_installed.
Qed.

Lemma add_scripts_object entries fields :
  add_scripts entries (Object fields)
  = Some (Object (assign "scripts"
                    (foldl set_script
                       (or_else (default Undefined (field "scripts" fields))
                                (Object []))
                       entries)
                    fields)).
Proof. reflexivity. Qed.

Lemma run_object entries fields :
  run entries (Object fields)
  = Some (Object (json_members
                    (assign "scripts"
                       (foldl set_script
                          (or_else (default Undefined (field "scripts" fields))
                                   (Object []))
                          entries)
                       fields))).
Proof. reflexivity. Qed.

Lemma default_some (d v : Value) : default d (Some v) = v.
Proof. reflexivity. Qed.

(** The scaffolding script can be run again: the second run of either Node
    script leaves the [package.json] that the first run wrote as it is,
    unless the [scripts] member of the file the first run read was a number
    too large for a double ([1e400], read as infinity and written as
    [null]). *)
Theorem add_scripts_idempotent (entries : list (string * string))
    (fields : list (string * Value)) (pkg' : Value) :
  NoDup entries.*1 →
  (∀ sign, field "scripts" fields ≠ Some (Number (S754_infinity sign))) →
  run entries (Object fields) = Some pkg' →
  run entries pkg' = Some pkg'.
Proof.
  intros Hnd Hinf. rewrite run_object. intros [= <-].
  set (scripts := or_else (default Undefined (field "scripts" fields))
                          (Object [])).
  assert (Htruthy : truthy scripts = true).
  { unfold scripts, or_else.
    by destruct (truthy (default Undefined (field "scripts" fields))) eqn:H. }
  assert (Hfinite : ∀ sign, scripts ≠ Number (S754_infinity sign)).
  { intros sign. unfold scripts, or_else.
    destruct (truthy (default Undefined (field "scripts" fields))); [|done].
    destruct (field "scripts" fields) as [m|]; [|done].
    rewrite default_some. intros ->. by apply (Hinf sign). }
  clearbody scripts.
  set (written := foldl set_script scripts entries).
  assert (Htw : truthy (json written) = true).
  { unfold written. destruct scripts as [| |b|x|str|bs|items|old]; try done;
      try (rewrite (set_scripts_other entries _) by done;
           by apply truthy_json).
    by rewrite set_scripts_object. }
  assert (Hdef : written ≠ Undefined).
  { intros Hw. revert Htruthy. unfold written in Hw.
    rewrite <- (set_scripts_truthy entries scripts). by rewrite Hw. }
  rewrite run_object.
  rewrite (field_json_members "scripts" _ written)
    by (apply field_assign || done).
  rewrite default_some, (or_else_truthy (json written)) by done.
  unfold written. rewrite set_scripts_again by done. fold written.
  rewrite assign_same
    by (apply (field_json_members "scripts" _ written);
        [apply field_assign|done]).
  do 2 f_equal.
  assert (Hi := json_idempotent (Object (assign "scripts" written fields))).
  rewrite !json_object in Hi. by injection Hi.
Qed.

Lemma add_scripts_idempotent_witness :
  run backend_scripts (Object fresh_fields) = Some scripted_package
  ∧ run backend_scripts scripted_package = Some scripted_package.
Proof.
  assert (Hrun : run backend_scripts (Object fresh_fields)
                 = Some scripted_package).
  { vm_compute. reflexivity. }
  split; [exact Hrun|].
  apply (add_scripts_idempotent backend_scripts fresh_fields scripted_package).
  - apply (bool_decide_unpack _). vm_compute. exact I.
  - intros sign. vm_compute. discriminate.
  - exact Hrun.
Defined.

(** The exception: with [scripts] read as infinity the first run installs
    nothing and writes [null], and the second run installs the scripts. *)
Example add_scripts_twice_on_infinity :
  run backend_scripts odd_package
  = Some (Object [("name", Str "veil-backend"); ("scripts", Null)])
  ∧ run backend_scripts
      (Object [("name", Str "veil-backend"); ("scripts", Null)])
    = Some (Object [("name", Str "veil-backend");
                    ("scripts",
                     Object [("dev", Str "ts-node src/server.ts");
                             ("start", Str "node dist/server.js");
                             ("build", Str "tsc");
                             ("lint", Str backend_lint)])]).
Proof. split; vm_compute; reflexivity. Qed.

(** Both script lists name each script once, which is what running the
    scaffolding script twice relies on. *)
Lemma script_names_distinct :
  NoDup frontend_scripts.*1 ∧ NoDup backend_scripts.*1.
Proof. split; apply (bool_decide_unpack _); vm_compute; exact I. Qed.

Lemma assign_defined key v fields :
  v ≠ Undefined → Forall (λ kv, kv.2 ≠ Undefined) fields →
  Forall (λ kv : string * Value, kv.2 ≠ Undefined) (assign key v fields).
Proof.
  intros Hv. induction 1 as [|[k x] fields Hx Hfields IH]; cbn [assign].
  - by repeat constructor.
  - destruct (String.eqb k key); by constructor.
Qed.

Lemma field_json_assign_other key key' v fields :
  key' ≠ key →
  field key' (json_members (assign key v fields)) = field key' (json_members fields).
Proof.
  intros Hne. induction fields as [|[k x] fields IH]; cbn [assign].
  - destruct (undefined_or_not v) as [->|Hv]; [done|].
    rewrite json_members_cons by done. cbn [json_members field].
    by destruct (String.eqb_spec key key').
  - destruct (String.eqb_spec k key) as [->|Hk].
    + destruct (undefined_or_not v) as [->|Hv],
               (undefined_or_not x) as [->|Hx];
        rewrite ?(json_members_cons key v) by done;
        rewrite ?(json_members_cons key x) by done;
        cbn [json_members field];
        by destruct (String.eqb_spec key key').
    + destruct (undefined_or_not x) as [->|Hx]; [done|].
      rewrite !json_members_cons by done. cbn [field]. by rewrite IH.
Qed.

Lemma written_untouched key entries fields :
  key ∉ entries.*1 →
  field key (json_members
               (foldl (λ fs entry, assign entry.1 (Str entry.2) fs) fields entries))
  = field key (json_members fields).
Proof.
  revert fields. induction entries as [|[k c] es IH]; intros fields Hnot;
    [done|].
  rewrite fmap_cons, not_elem_of_cons in Hnot. destruct Hnot as [Hne Hnot].
  cbn [foldl fst snd]. rewrite IH by done. by apply field_json_assign_other.
Qed.

Lemma keys_fmap_json fields :
  keys ((λ kv, (kv.1, json kv.2)) <$> fields) = keys fields.
Proof.
  unfold keys. induction fields as [|[k x] fields IH]; [done|].
  rewrite !fmap_cons. cbn [fst]. by rewrite IH.
Qed.

(** On a [package.json] whose [scripts] member is absent, falsy or an
    object, the Node script installs every script it names and leaves the
    rest to JSON: the other members are written back as JSON carries the
    values read, in the order in which [JSON.parse] lists them (a missing
    [scripts] is added last), and so are the scripts that were there under
    other names. *)
Theorem add_scripts_installs_and_preserves (entries : list (string * string))
    (fields : list (string * Value)) (old : list (string * Value)) :
  NoDup entries.*1 →
  Forall (λ kv, kv.2 ≠ Undefined) fields →
  or_else (default Undefined (field "scripts" fields)) (Object []) = Object old →
  ∃ fields' scripts',
    run entries (Object fields) = Some (Object fields')
    ∧ field "scripts" fields' = Some (Object scripts')
    ∧ (∀ key command, (key, command) ∈ entries →
         field key scripts' = Some (Str command))
    ∧ (∀ key, key ∉ entries.*1 →
         field key scripts' = field key (json_members old))
    ∧ (∀ key, key ≠ "scripts" → field key fields' = json <$> field key fields)
    ∧ keys fields'
      = (if decide ("scripts" ∈ keys fields) then keys fields
         else keys fields ++ ["scripts"]).
Proof.
  intros Hnd Hdef Hold. rewrite run_object, Hold, set_scripts_object.
  set (installed := foldl (λ fs entry, assign entry.1 (Str entry.2) fs) old entries).
  rewrite (json_members_defined (assign "scripts" (Object installed) fields))
    by (by apply assign_defined).
  eexists _, (json_members installed). split; [reflexivity|].
  split; [by rewrite field_fmap_json, field_assign|].
  split.
  { intros key command Hin.
    apply (field_json_members key installed (Str command)); [|done].
    by apply assigned_installed. }
  split; [intros key Hnot; by apply written_untouched|].
  split.
  { intros key Hne. rewrite field_fmap_json. by rewrite field_assign_other. }
  rewrite keys_fmap_json. apply keys_assign.
Qed.

Lemma add_scripts_installs_and_preserves_witness :
  ∃ fields' scripts',
    run backend_scripts (Object fresh_fields) = Some (Object fields')
    ∧ field "scripts" fields' = Some (Object scripts')
    ∧ (∀ key command, (key, command) ∈ backend_scripts →
         field key scripts' = Some (Str command))
    ∧ (∀ key, key ∉ backend_scripts.*1 →
         field key scripts'
         = field key (json_members [("test", Str "echo no test && exit 1")]))
    ∧ (∀ key, key ≠ "scripts" →
         field key fields' = json <$> field key fresh_fields)
    ∧ keys fields'
      = (if decide ("scripts" ∈ keys fresh_fields) then keys fresh_fields
         else keys fresh_fields ++ ["scripts"]).
Proof.
  apply (add_scripts_installs_and_preserves backend_scripts fresh_fields
           [("test", Str "echo no test && exit 1")]).
  - apply (bool_decide_unpack _). vm_compute. exact I.
  - unfold fresh_fields. repeat constructor; discriminate.
  - vm_compute. reflexivity.
Defined.

(** A [scripts] member that is truthy but no object (a non-empty string, a
    number, [true], an array) defeats the script silently: the assignments
    to its properties do nothing, and the file is written back as JSON
    carries what was read, with none of the scripts installed. *)
Theorem add_scripts_lost_on_primitive_scripts (entries : list (string * string))
    (fields : list (string * Value)) (scripts : Value) :
  field "scripts" fields = Some scripts →
  truthy scripts = true →
  (∀ old, scripts ≠ Object old) →
  run entries (Object fields) = Some (json (Object fields)).
Proof.
  intros Hfield Htruthy Hno. rewrite run_object, Hfield, default_some.
  rewrite or_else_truthy by done. rewrite set_scripts_other by done.
  by rewrite assign_same.
Qed.

Lemma add_scripts_lost_on_primitive_scripts_witness :
  run backend_scripts
    (Object [("name", Str "veil-backend"); ("scripts", Str "none")])
  = Some (json (Object [("name", Str "veil-backend"); ("scripts", Str "none")])).
Proof.
  apply (add_scripts_lost_on_primitive_scripts backend_scripts
           [("name", Str "veil-backend"); ("scripts", Str "none")]
           (Str "none")).
  - vm_compute. reflexivity.
  - vm_compute. reflexivity.
  - intros old. discriminate.
Defined.

End PackageJsonProperties.

Section LandingPageProperties.
Import LandingPage.

(** The waitlist section shows exactly one of its three blocks in every
    state of the three flags: the error notice whenever the error flag is
    set (also when the widget is loaded), else the widget once it is loaded,
    else the placeholder. *)
Theorem waitlist_shows_one_block (st : State) :
  waitlist st
  = [if widgetError st then ErrorNotice
     else if isWidgetLoaded st then WidgetMount else LoadingPlaceholder].
Proof. by destruct st as [[] [] ?]. Qed.

Lemma call_keeps_flags st c :
  let st' := (call st c).1 in
  (isWidgetLoaded st = true → isWidgetLoaded st' = true)
  ∧ (widgetError st = true → widgetError st' = true)
  ∧ (widgetInitialized st = true → widgetInitialized st' = true)
  ∧ (isWidgetLoaded st = widgetInitialized st →
     isWidgetLoaded st' = widgetInitialized st').
Proof.
  destruct st as [l e i], c as [[]| | |[]]; cbn; destruct i; cbn; auto.
Qed.

Lemma after_snoc st cs c : after st (cs ++ [c]) = (call (after st cs) c).1.
Proof. unfold after. by rewrite foldl_app. Qed.

Lemma after_app st cs cs' : after st (cs ++ cs') = after (after st cs) cs'.
Proof. unfold after. by rewrite foldl_app. Qed.

Lemma after_keeps_flags st cs :
  (isWidgetLoaded st = true → isWidgetLoaded (after st cs) = true)
  ∧ (widgetError st = true → widgetError (after st cs) = true)
  ∧ (widgetInitialized st = true → widgetInitialized (after st cs) = true)
  ∧ (isWidgetLoaded st = widgetInitialized st →
     isWidgetLoaded (after st cs) = widgetInitialized (after st cs)).
Proof.
  induction cs as [|c cs IH] using rev_ind; [done|].
  rewrite after_snoc.
  destruct IH as (Hl & He & Hi & Heq).
  destruct (call_keeps_flags (after st cs) c) as (Hl' & He' & Hi' & Heq').
  repeat split; auto.
Qed.

(** Through any sequence of effect runs and script events, starting from the
    component's initial state: the widget counts as loaded exactly when it
    counts as initialised; no flag is ever reset, so an error notice, once
    shown, stays for good (nothing retries the load); and once the widget is
    initialised the effect does nothing, so no second script is added. *)
Theorem widget_flags_only_rise (cs cs' : list Call) (existing_script : bool) :
  isWidgetLoaded (after initial cs) = widgetInitialized (after initial cs)
  ∧ (isWidgetLoaded (after initial cs) = true →
     isWidgetLoaded (after (after initial cs) cs') = true)
  ∧ (widgetError (after initial cs) = true →
     waitlist (after (after initial cs) cs') = [ErrorNotice])
  ∧ (widgetInitialized (after initial cs) = true →
     call (after (after initial cs) cs') (RunEffect existing_script)
     = (after (after initial cs) cs', [])).
Proof.
  destruct (after_keeps_flags initial cs) as (_ & _ & _ & Heq).
  destruct (after_keeps_flags (after initial cs) cs') as (Hl & He & Hi & _).
  split; [by apply Heq|]. split; [done|]. split.
  - intros Herr. unfold waitlist. rewrite (He Herr).
    by destruct (isWidgetLoaded (after (after initial cs) cs')).
  - intros Hinit. cbn [call]. by rewrite (Hi Hinit).
Qed.

(** The script is requested only by a run of the effect that finds the
    widget not initialised and no script of that address in the page. *)
Theorem script_appended_only_when_missing (cs : list Call) (c : Call)
    (src : string) (defer : bool) :
  AppendScript src defer ∈ (call (after initial cs) c).2 →
  c = RunEffect false
  ∧ widgetInitialized (after initial cs) = false
  ∧ src = widget_src ∧ defer = true.
Proof.
  destruct c as [[]| | |[]]; cbn [call];
    destruct (widgetInitialized (after initial cs)); cbn [snd];
    intros Hin; try (by apply elem_of_nil in Hin);
    try (apply list_elem_of_singleton in Hin; by simplify_eq).
Qed.

Lemma script_appended_only_when_missing_witness :
  AppendScript widget_src true
    ∈ (call (after initial [ScriptFailed]) (RunEffect false)).2
  ∧ RunEffect false = RunEffect false
  ∧ widgetInitialized (after initial [ScriptFailed]) = false
  ∧ widget_src = widget_src ∧ true = true.
Proof.
  assert (Hin : AppendScript widget_src true
                ∈ (call (after initial [ScriptFailed]) (RunEffect false)).2).
  { vm_compute. apply list_elem_of_here. }
  split; [exact Hin|].
  exact (script_appended_only_when_missing [ScriptFailed] (RunEffect false)
           widget_src true Hin).
Defined.

End LandingPageProperties.
